(** * The tool-call event pipeline of the agent dashboard

    A shallow embedding of [src/lib/agent-events.ts] (payload normalizer,
    result classifier, event-store reducer) and of the two pieces of
    [src/app/page.tsx] that drive it (the [stop] handler and the ingestion
    scanner effect), followed by the properties of the pipeline.

    Conventions of the embedding.
    - A value of TypeScript type [unknown] is a [JsValue]: the values a
      JSON-decoded stream part can hold, plus [undefined].
    - A plain object used as a dictionary is a [gmap string _] holding its
      own properties.  Where the keys are fixed names that
      [Object.prototype] does not have ([record.type], [acc[label]]),
      reading a key that is not there gives [undefined].  Where the keys
      are tool-call ids ([byId], [callStartRef.current]), a read goes
      through [member], which also finds what the object inherits from
      [Object.prototype].
    - A JavaScript number carried by a payload is a binary64 [float].
      Wall-clock readings are integers far below 2^53 and are kept in
      [Z]; a duration is such an integer or [NaN].
    - [Date.now()] is an input: the reducer receives the reading it would
      make, the scanner reads a clock [nat -> Z] at successive ticks.
    - The abort sentinel [ABORTED] is a string constant of [@/lib/utils];
      the development is parametric in it. *)

From Stdlib Require Import ZArith Floats.
From stdpp Require Import gmap strings list fin_maps.

Set Warnings "-register-all".
Open Scope string_scope.
Open Scope list_scope.

(** ** JavaScript values *)

Module Js.

Inductive JsValue : Type :=
  | JUndefined
  | JNull
  | JBool (b : bool)
  | JNumber (n : float)
  | JString (s : string)
  | JArray (items : list JsValue)
  | JObject (fields : gmap string JsValue).

(** [!value] is [negb (truthy value)]. *)
Definition truthy (value : JsValue) : bool :=
  match value with
  | JUndefined | JNull => false
  | JBool b => b
  | JNumber n => negb (PrimFloat.is_zero n || PrimFloat.is_nan n)
  | JString s => negb (bool_decide (s = ""))
  | JArray _ | JObject _ => true
  end.

(** [typeof value]. *)
Definition typeof (value : JsValue) : string :=
  match value with
  | JUndefined => "undefined"
  | JNull => "object"
  | JBool _ => "boolean"
  | JNumber _ => "number"
  | JString _ => "string"
  | JArray _ | JObject _ => "object"
  end.

(** [Array.isArray(value)]. *)
Definition isArray (value : JsValue) : bool :=
  match value with JArray _ => true | _ => false end.

(** [record.key] on a plain object. *)
Definition prop (record : gmap string JsValue) (key : string) : JsValue :=
  default JUndefined (record !! key).

(** [value === s] for a string literal [s]. *)
Definition isString (value : JsValue) (s : string) : bool :=
  match value with JString s' => bool_decide (s' = s) | _ => false end.

(** [a ?? b] where the left operand is an optional value of a type that
    has neither [null] nor [undefined] among its inhabitants. *)
Definition nullish {A : Type} (a : option A) (b : A) : A := default b a.

(** The names of the properties of [Object.prototype], which every plain
    object inherits; each of them holds a function, or for [__proto__]
    the prototype itself, hence a truthy value that is not nullish. *)
Definition prototypeMembers : list string :=
  [ "constructor"; "hasOwnProperty"; "isPrototypeOf"; "propertyIsEnumerable";
    "toLocaleString"; "toString"; "valueOf"; "__proto__";
    "__defineGetter__"; "__defineSetter__"; "__lookupGetter__"; "__lookupSetter__" ].

(** What [object[key]] finds on a plain object used as a dictionary. *)
Inductive Member (A : Type) : Type :=
  | Own (value : A)
  | Inherited
  | Missing.

Arguments Own {A} value.
Arguments Inherited {A}.
Arguments Missing {A}.

(** [object[key]], with [object] given by its own properties. *)
Definition member {A : Type} (object : gmap string A) (key : string) : Member A :=
  match object !! key with
  | Some value => Own value
  | None => if decide (key ∈ prototypeMembers) then Inherited else Missing
  end.

(** [object[key] = value] on a plain object: for [__proto__] the setter
    inherited from [Object.prototype] runs, which ignores a number. *)
Definition assign (object : gmap string Z) (key : string) (value : Z)
  : gmap string Z :=
  if decide (key = "__proto__") then object else <[key := value]> object.

(** A number that counts milliseconds: an integer, or [NaN]. *)
Inductive number : Type :=
  | Int (z : Z)
  | NaN.

End Js.

Import Js.

(** ** [src/lib/agent-events.ts] *)

Module AgentEvents.

Inductive ToolName : Type := ToolComputer | ToolBash | ToolUnknown.

Inductive ToolEventStatus : Type := running | success | error | aborted.

(** The ten literals of the type [ComputerAction]. *)
Definition ComputerAction : list string :=
  [ "screenshot"; "left_click"; "right_click"; "double_click"; "mouse_move";
    "type"; "key"; "wait"; "scroll"; "unknown" ].

(** At run time the [action] and [scroll_direction] fields hold whatever
    string the cast [as ComputerAction] let through, hence [string]. *)
Record ComputerPayload : Type := mkComputerPayload {
  action : string;
  coordinate : option (float * float);
  text : option string;
  duration : option float;
  scroll_amount : option float;
  scroll_direction : option string;
}.

Inductive ToolPayload : Type :=
  | PayloadComputer (p : ComputerPayload)
  | PayloadBash (command : string)
  | PayloadUnknown (raw : gmap string JsValue).

Inductive ToolResult : Type :=
  | ResultText (text : string)
  | ResultImage (data : string)
  | ResultAborted (text : string)
  | ResultUnknown (raw : JsValue).

Record ToolEvent : Type := mkToolEvent {
  id : string;
  toolName : ToolName;
  timestamp : Z;
  status : ToolEventStatus;
  durationMs : option number;
  payload : ToolPayload;
  result : option ToolResult;
}.

(** What a slot of [byId] holds at run time: an event, or the object
    [{status, durationMs, result}] the update branch of the reducer leaves
    when [existing] is a member inherited from [Object.prototype], whose
    spread contributes no property. *)
Inductive Stored : Type :=
  | Registered (event : ToolEvent)
  | Residue (status : ToolEventStatus) (durationMs : number)
            (result : option ToolResult).

(** [entry.status], [entry.durationMs] and [entry.result] on a slot. *)
Definition statusOf (entry : Stored) : ToolEventStatus :=
  match entry with
  | Registered event => status event
  | Residue st _ _ => st
  end.

Definition durationOf (entry : Stored) : option number :=
  match entry with
  | Registered event => durationMs event
  | Residue _ d _ => Some d
  end.

Definition resultOf (entry : Stored) : option ToolResult :=
  match entry with
  | Registered event => result event
  | Residue _ _ r => r
  end.

(** [byId] is given by its own properties; it is read through [member]. *)
Record EventState : Type := mkEventState {
  byId : gmap string Stored;
  order : list string;
}.

Inductive EventAction : Type :=
  | RegisterCall (event : ToolEvent)
  | RegisterResult (id : string) (status : ToolEventStatus) (durationMs : number)
                   (result : option ToolResult)
  | Reset.

Definition initialEventState : EventState :=
  {| byId := ∅; order := [] |}.

(** [{ ...existing, status, durationMs, result: result ?? existing.result }]
    for a truthy [existing]: an inherited member has no own enumerable
    property to spread and no [result]. *)
Definition updated (existing : Member Stored) (astatus : ToolEventStatus)
    (adurationMs : number) (aresult : option ToolResult) : Stored :=
  match existing with
  | Own (Registered e) =>
      Registered {| id := id e;
                    toolName := toolName e;
                    timestamp := timestamp e;
                    status := astatus;
                    durationMs := Some adurationMs;
                    payload := payload e;
                    result := match aresult with
                              | Some r => Some r
                              | None => result e
                              end |}
  | Own (Residue _ _ previous) =>
      Residue astatus adurationMs
        match aresult with Some r => Some r | None => previous end
  | Inherited | Missing => Residue astatus adurationMs aresult
  end.

(** [now] is the reading [Date.now()] returns if the reducer makes it.
    [state.byId[id]] is truthy for an own slot and for an inherited member. *)
Definition eventReducer (now : Z) (state : EventState) (action : EventAction)
  : EventState :=
  match action with
  | RegisterCall event =>
      match member (byId state) (id event) with
      | Own _ | Inherited => state
      | Missing =>
          {| byId := <[id event := Registered event]> (byId state);
             order := order state ++ [id event] |}
      end
  | RegisterResult aid astatus adurationMs aresult =>
      match member (byId state) aid with
      | Missing =>
          let event :=
            {| id := aid;
               toolName := ToolUnknown;
               timestamp := now;
               status := astatus;
               durationMs := Some adurationMs;
               payload := PayloadUnknown ∅;
               result := aresult |} in
          {| byId := <[aid := Registered event]> (byId state);
             order := order state ++ [aid] |}
      | existing =>
          {| byId := <[aid := updated existing astatus adurationMs aresult]> (byId state);
             order := order state |}
      end
  | Reset => initialEventState
  end.

Definition getEventType (event : ToolEvent) : string :=
  match payload event with
  | PayloadComputer p => "computer:" +:+ action p
  | PayloadBash _ => "bash:command"
  | PayloadUnknown _ => "unknown"
  end.

Definition asString (value : JsValue) : option string :=
  match value with JString s => Some s | _ => None end.

Definition asNumber (value : JsValue) : option float :=
  match value with
  | JNumber n => if PrimFloat.is_finite n then Some n else None
  | _ => None
  end.

Definition asCoordinate (value : JsValue) : option (float * float) :=
  match value with
  | JArray [JNumber x; JNumber y] => Some (x, y)
  | _ => None
  end.

Definition asRecord (value : JsValue) : option (gmap string JsValue) :=
  if negb (truthy value) || negb (bool_decide (typeof value = "object"))
  then None
  else if isArray value then None
  else match value with JObject fields => Some fields | _ => None end.

Definition parseToolPayload (toolName : string) (args : JsValue) : ToolPayload :=
  if decide (toolName = "bash") then
    let record := asRecord args in
    let command := record ≫= (λ r, asString (prop r "command")) in
    PayloadBash (nullish command "")
  else if decide (toolName = "computer") then
    let record := nullish (asRecord args) ∅ in
    let action := asString (prop record "action") in
    PayloadComputer
      {| action := nullish action "unknown";
         coordinate := asCoordinate (prop record "coordinate");
         text := asString (prop record "text");
         duration := asNumber (prop record "duration");
         scroll_amount := asNumber (prop record "scroll_amount");
         scroll_direction := asString (prop record "scroll_direction") |}
  else
    PayloadUnknown (nullish (asRecord args) ∅).

Section Classifier.

(** The abort sentinel exported by [@/lib/utils]. *)
Variable ABORTED : string.

Definition parseToolResult (result : JsValue) : option ToolResult :=
  match result with
  | JUndefined | JNull => None
  | JString s =>
      if decide (s = ABORTED) then Some (ResultAborted s)
      else Some (ResultText s)
  | _ =>
      let record := asRecord result in
      (* [record?.type === tag && typeof record.field === "string"],
         yielding the string the guard has just checked *)
      let guarded (tag field : string) : option string :=
        record ≫= (λ r, if isString (prop r "type") tag
                        then asString (prop r field) else None) in
      match guarded "image" "data" with
      | Some data => Some (ResultImage data)
      | None =>
          match guarded "text" "text" with
          | Some t =>
              if decide (t = ABORTED) then Some (ResultAborted t)
              else Some (ResultText t)
          | None => Some (ResultUnknown result)
          end
      end
  end.

End Classifier.

Definition deriveStatusFromResult (result : option ToolResult) : ToolEventStatus :=
  match result with
  | None => success
  | Some (ResultAborted _) => aborted
  | Some _ => success
  end.

End AgentEvents.

(** ** [src/app/page.tsx]: the stop handler and the ingestion scanner *)

Module Page.

Inductive InvocationState : Type := StateCall | StateResult.

(** [result] is [JUndefined] when the occurrence carries none. *)
Record ToolInvocation : Type := mkToolInvocation {
  toolCallId : string;
  toolName : string;
  state : InvocationState;
  args : JsValue;
  result : JsValue;
}.

(** The parts of a message the pipeline tells apart, the constructor
    standing for the [type] discriminant: [isToolInvocationPart] and the
    test [type === "tool-invocation"] are matches on [ToolInvocationPart].
    The remaining kinds of the chat library (reasoning, source, file)
    behave as [StepStartPart]. *)
Inductive MessagePart : Type :=
  | TextPart (text : string)
  | ToolInvocationPart (toolInvocation : ToolInvocation)
  | StepStartPart.

Inductive Role : Type := RoleSystem | RoleUser | RoleAssistant | RoleData.

(** [parts] is optional in the chat library's [Message]. *)
Record Message : Type := mkMessage {
  messageId : string;
  role : Role;
  content : string;
  parts : option (list MessagePart);
}.

Definition normalizeToolName (toolName : string) : AgentEvents.ToolName :=
  if decide (toolName = "computer") then AgentEvents.ToolComputer
  else if decide (toolName = "bash") then AgentEvents.ToolBash
  else AgentEvents.ToolUnknown.

(** The mutable cells of the [Chat] component the pipeline uses: the
    reducer state, the three refs, and how many clock readings were made.
    [callStart] is a plain object, given by its own properties. *)
Record Scanner : Type := mkScanner {
  eventState : AgentEvents.EventState;
  seenCalls : gset string;
  seenResults : gset string;
  callStart : gmap string Z;
  reads : nat;
}.

Section WithEnvironment.

(** The abort sentinel exported by [@/lib/utils]. *)
Variable ABORTED : string.

(** [Date_now k] is the [k]-th reading of the wall clock. *)
Variable Date_now : nat → Z.

(** [stop], given the [messages] of the current render and the state
    [prev] handed to the [setMessages] updater; the result is the next
    message state, [None] when reading [.at] of an absent [parts] throws.
    (The call to the chat library's own [stop] is outside the model.) *)
Definition stop (messages prev : list Message) : option (list Message) :=
  match last messages with
  | None => Some prev
  | Some lastMessage =>
      match parts lastMessage with
      | None => None
      | Some lastParts =>
          match role lastMessage, last lastParts with
          | RoleAssistant, Some (ToolInvocationPart lastInvocation) =>
              Some (removelast prev ++
                [ {| messageId := messageId lastMessage;
                     role := role lastMessage;
                     content := content lastMessage;
                     parts := Some (removelast lastParts ++
                       [ ToolInvocationPart
                           {| toolCallId := toolCallId lastInvocation;
                              toolName := toolName lastInvocation;
                              state := StateResult;
                              args := args lastInvocation;
                              result := JString ABORTED |} ]) |} ])
          | _, _ => Some prev
          end
      end
  end.

(** Whether the reducer calls [Date.now()] on an action: only where it
    synthesizes an event. *)
Definition readsClock (s : AgentEvents.EventState) (action : AgentEvents.EventAction)
  : bool :=
  match action with
  | AgentEvents.RegisterResult k _ _ _ =>
      match member (AgentEvents.byId s) k with
      | Missing => true
      | Own _ | Inherited => false
      end
  | AgentEvents.RegisterCall _ | AgentEvents.Reset => false
  end.

(** [dispatchEvent(action)]: the queued action is folded into the reducer
    state; the reducer's clock reading, if it makes one, is the next one. *)
Definition dispatchEvent (sc : Scanner) (action : AgentEvents.EventAction)
  : Scanner :=
  {| eventState :=
       AgentEvents.eventReducer (Date_now (reads sc)) (eventState sc) action;
     seenCalls := seenCalls sc;
     seenResults := seenResults sc;
     callStart := callStart sc;
     reads := if readsClock (eventState sc) action then S (reads sc) else reads sc |}.

(** [if (state === "call" && !seenCallsRef.current.has(toolCallId)) ...] *)
Definition scanCall (sc : Scanner) (inv : ToolInvocation) : Scanner :=
  match state inv with
  | StateCall =>
      if decide (toolCallId inv ∈ seenCalls sc) then sc
      else
        let timestamp := Date_now (reads sc) in
        dispatchEvent
          {| eventState := eventState sc;
             seenCalls := {[toolCallId inv]} ∪ seenCalls sc;
             seenResults := seenResults sc;
             callStart := assign (callStart sc) (toolCallId inv) timestamp;
             reads := S (reads sc) |}
          (AgentEvents.RegisterCall
             {| AgentEvents.id := toolCallId inv;
                AgentEvents.toolName := normalizeToolName (toolName inv);
                AgentEvents.timestamp := timestamp;
                AgentEvents.status := AgentEvents.running;
                AgentEvents.durationMs := None;
                AgentEvents.payload :=
                  AgentEvents.parseToolPayload (toolName inv) (args inv);
                AgentEvents.result := None |})
  | StateResult => sc
  end.

(** [Math.max(0, now - startedAt)], where [startedAt] is a number or,
    found as an inherited member, converts to [NaN]. *)
Definition elapsed (startedAt : option Z) (now : Z) : number :=
  match startedAt with
  | Some t => Int (Z.max 0 (now - t))
  | None => NaN
  end.

(** [if (state === "result" && !seenResultsRef.current.has(toolCallId)) ...];
    [callStartRef.current[toolCallId] ?? Date.now()] reads the clock only
    when the lookup finds nothing, own or inherited. *)
Definition scanResult (sc : Scanner) (inv : ToolInvocation) : Scanner :=
  match state inv with
  | StateCall => sc
  | StateResult =>
      if decide (toolCallId inv ∈ seenResults sc) then sc
      else
        let '(startedAt, reads1) :=
          match member (callStart sc) (toolCallId inv) with
          | Own t => (Some t, reads sc)
          | Inherited => (None, reads sc)
          | Missing => (Some (Date_now (reads sc)), S (reads sc))
          end in
        let parsedResult := AgentEvents.parseToolResult ABORTED (result inv) in
        let status := AgentEvents.deriveStatusFromResult parsedResult in
        dispatchEvent
          {| eventState := eventState sc;
             seenCalls := seenCalls sc;
             seenResults := {[toolCallId inv]} ∪ seenResults sc;
             callStart := callStart sc;
             reads := S reads1 |}
          (AgentEvents.RegisterResult (toolCallId inv) status
             (elapsed startedAt (Date_now reads1)) parsedResult)
  end.

(** The body of [message.parts?.forEach((part) => ...)]: parts that are no
    tool invocation and invocations with an empty id are skipped. *)
Definition scanPart (sc : Scanner) (part : MessagePart) : Scanner :=
  match part with
  | ToolInvocationPart inv =>
      if decide (toolCallId inv = "") then sc
      else scanResult (scanCall sc inv) inv
  | TextPart _ | StepStartPart => sc
  end.

Definition scanMessage (sc : Scanner) (message : Message) : Scanner :=
  match parts message with
  | Some ps => foldl scanPart sc ps
  | None => sc
  end.

(** The ingestion effect, run on every change of [messages]. *)
Definition scanMessages (hasHydrated : bool) (messages : list Message)
    (sc : Scanner) : Scanner :=
  if hasHydrated then foldl scanMessage sc messages else sc.

(** The effect run on every change of the active session. *)
Definition resetTracking (hasHydrated : bool) (sc : Scanner) : Scanner :=
  if hasHydrated then
    {| eventState :=
         AgentEvents.eventReducer (Date_now (reads sc)) (eventState sc)
           AgentEvents.Reset;
       seenCalls := ∅;
       seenResults := ∅;
       callStart := ∅;
       reads := reads sc |}
  else sc.

End WithEnvironment.

End Page.

(** ** [src/app/page.tsx]: the views derived from the store *)

Module Views.

Import AgentEvents.

(** The [status] the chat hook reports. *)
Inductive ChatStatus : Type :=
  | ChatSubmitted | ChatStreaming | ChatReady | ChatError.

(** [eventState.order.map((id) => eventState.byId[id]).filter(Boolean)]:
    what is listed for an id is its own slot or, failing that, the member
    it names in [Object.prototype]; only ids that find nothing are
    filtered out. *)
Definition events (eventState : EventState) : list (Member Stored) :=
  omap (λ k, match member (byId eventState) k with
             | Missing => None
             | found => Some found
             end)
       (order eventState).

(** [events.reduce((acc, event) => { acc[type] = (acc[type] ?? 0) + 1; ... }, acc)];
    counts are natural numbers. *)
Definition countInto (acc : gmap string nat) (events : list ToolEvent)
  : gmap string nat :=
  foldl (λ acc event,
           let type := getEventType event in
           <[type := default 0 (acc !! type) + 1]> acc)
        acc events.

Definition eventCounts (events : list ToolEvent) : gmap string nat :=
  countInto ∅ events.

(** [event.status === "running"]; an inherited member has no [status]. *)
Definition isRunning (event : Member Stored) : bool :=
  match event with
  | Own entry => match statusOf entry with running => true | _ => false end
  | Inherited | Missing => false
  end.

Definition agentStatus (events : list (Member Stored)) (status : ChatStatus)
  : string :=
  if existsb isRunning events then "Acting"
  else match status with
       | ChatSubmitted | ChatStreaming => "Thinking"
       | ChatReady | ChatError => "Idle"
       end.

End Views.

(** ** Vocabulary of the properties *)

Module Spec.

Import AgentEvents.

(** States the reducer can produce from [initialEventState]. *)
Inductive reachable : EventState → Prop :=
  | reachable_initial : reachable initialEventState
  | reachable_step now s a :
      reachable s → reachable (eventReducer now s a).

(** [order] lists, each once, exactly the ids whose slot holds an event;
    none of them is a name of [Object.prototype], and a slot that holds
    no event sits under such a name. *)
Definition consistent (s : EventState) : Prop :=
  NoDup (order s) ∧
  (∀ k, k ∈ order s ↔ ∃ e, byId s !! k = Some (Registered e)) ∧
  (∀ k, k ∈ order s → k ∉ prototypeMembers) ∧
  (∀ k st d r, byId s !! k = Some (Residue st d r) → k ∈ prototypeMembers).

(** A raw result whose entire text payload is the sentinel: the sentinel
    itself, or an object whose [text] field is the sentinel. *)
Definition carriesSentinel (ABORTED : string) (raw : JsValue) : Prop :=
  raw = JString ABORTED ∨
  ∃ fields, raw = JObject fields ∧ fields !! "text" = Some (JString ABORTED).

(** The [action] the arguments supply: the [action] field of a non-array
    object when that field is a string. *)
Definition suppliedAction (args : JsValue) : option string :=
  match args with
  | JObject fields =>
      match fields !! "action" with
      | Some (JString a) => Some a
      | _ => None
      end
  | _ => None
  end.

(** No slot of the store is in [running] status. *)
Definition noneRunning (s : EventState) : Prop :=
  ∀ k e, byId s !! k = Some e → statusOf e ≠ running.

(** The scanner has already dealt with a part: it is no tool invocation,
    its id is empty, or its id is in the set its state tag is checked
    against. *)
Definition observed (sc : Page.Scanner) (part : Page.MessagePart) : Prop :=
  match part with
  | Page.ToolInvocationPart inv =>
      Page.toolCallId inv = "" ∨
      match Page.state inv with
      | Page.StateCall => Page.toolCallId inv ∈ Page.seenCalls sc
      | Page.StateResult => Page.toolCallId inv ∈ Page.seenResults sc
      end
  | _ => True
  end.

(** The scanner has already dealt with every part of the history. *)
Definition settled (sc : Page.Scanner) (messages : list Page.Message) : Prop :=
  Forall (λ m, ∀ ps, Page.parts m = Some ps → Forall (observed sc) ps) messages.

(** The dedup sets of [sc'] contain those of [sc]. *)
Definition grows (sc sc' : Page.Scanner) : Prop :=
  Page.seenCalls sc ⊆ Page.seenCalls sc' ∧
  Page.seenResults sc ⊆ Page.seenResults sc'.

(** What [stop] puts in place of the last message [m], whose parts [ps]
    end with the invocation [inv]. *)
Definition abortedLast (ABORTED : string) (m : Page.Message)
    (ps : list Page.MessagePart) (inv : Page.ToolInvocation) : Page.Message :=
  {| Page.messageId := Page.messageId m;
     Page.role := Page.role m;
     Page.content := Page.content m;
     Page.parts := Some (removelast ps ++
       [ Page.ToolInvocationPart
           {| Page.toolCallId := Page.toolCallId inv;
              Page.toolName := Page.toolName inv;
              Page.state := Page.StateResult;
              Page.args := Page.args inv;
              Page.result := JString ABORTED |} ]) |}.

(** The component as mounted: empty store, empty refs, no clock reading. *)
Definition initialScanner : Page.Scanner :=
  {| Page.eventState := initialEventState;
     Page.seenCalls := ∅;
     Page.seenResults := ∅;
     Page.callStart := ∅;
     Page.reads := 0 |}.

End Spec.

(** ** Vocabulary of the pipeline laws *)

Module Laws.

Import AgentEvents.

(** The reducer folded over a queue of actions, each with the clock
    reading the reducer would make. *)
Definition run (s : EventState) (queue : list (Z * EventAction)) : EventState :=
  foldl (λ s step, eventReducer step.1 s step.2) s queue.

Definition isReset (a : EventAction) : bool :=
  match a with Reset => true | _ => false end.

(** The [toolName] discriminant of a payload. *)
Definition payloadKind (p : ToolPayload) : ToolName :=
  match p with
  | PayloadComputer _ => ToolComputer
  | PayloadBash _ => ToolBash
  | PayloadUnknown _ => ToolUnknown
  end.

(** [s'] keeps what [s] has registered: the ids of [order] in place, every
    slot, and for every event its id, tool, timestamp and payload. *)
Definition extends (s s' : EventState) : Prop :=
  order s `prefix_of` order s' ∧
  (∀ k, is_Some (byId s !! k) → is_Some (byId s' !! k)) ∧
  ∀ k e, byId s !! k = Some (Registered e) →
    ∃ e', byId s' !! k = Some (Registered e') ∧ id e' = id e ∧
          toolName e' = toolName e ∧ timestamp e' = timestamp e ∧
          payload e' = payload e.

(** Every event is stored under its own id. *)
Definition keyed (s : EventState) : Prop :=
  ∀ k e, byId s !! k = Some (Registered e) → id e = k.

(** A raw result of the text-object shape: discriminant ["text"] and a
    string under [text]. *)
Definition textObject (raw : JsValue) (t : string) : Prop :=
  ∃ fields, raw = JObject fields ∧
            fields !! "type" = Some (JString "text") ∧
            fields !! "text" = Some (JString t).

(** A raw result of the image-object shape. *)
Definition imageObject (raw : JsValue) (data : string) : Prop :=
  ∃ fields, raw = JObject fields ∧
            fields !! "type" = Some (JString "image") ∧
            fields !! "data" = Some (JString data).

(** The string arguments hold under [key], if they are a non-array object
    with a string there. *)
Definition suppliedString (key : string) (args : JsValue) : option string :=
  match args with
  | JObject fields =>
      match fields !! key with
      | Some (JString s) => Some s
      | _ => None
      end
  | _ => None
  end.

(** What the label of an event is computed from: the kind of its payload
    and, for a computer payload, its action. *)
Definition labelKey (e : ToolEvent) : ToolName * option string :=
  match payload e with
  | PayloadComputer p => (ToolComputer, Some (action p))
  | PayloadBash _ => (ToolBash, None)
  | PayloadUnknown _ => (ToolUnknown, None)
  end.

(** Some event of the store is in [running] status. *)
Definition eventRunning (s : EventState) : Prop :=
  ∃ k e, byId s !! k = Some (Registered e) ∧ status e = running.

(** The sum of the counts of a summary. *)
Definition total (counts : gmap string nat) : nat :=
  map_fold (λ _ n acc, n + acc) 0 counts.

(** How many events of a list carry the label [type]. *)
Definition labelled (type : string) (events : list ToolEvent) : nat :=
  length (filter (λ e, getEventType e = type) events).

(** The id a part can get registered under: the id of a tool invocation,
    unless it is empty (the scanner skips the part) or a name of
    [Object.prototype] (the reducer finds the inherited member). *)
Definition partId (part : Page.MessagePart) : option string :=
  match part with
  | Page.ToolInvocationPart inv =>
      if decide (Page.toolCallId inv = "") then None
      else if decide (Page.toolCallId inv ∈ prototypeMembers) then None
      else Some (Page.toolCallId inv)
  | _ => None
  end.

(** The ids of a history that can get registered, in the order of the
    messages and of their parts, repetitions included. *)
Definition invocationIds (messages : list Page.Message) : list string :=
  messages ≫= (λ m, omap partId (default [] (Page.parts m))).

(** [ids] appended to [known] one by one, each only if not yet there. *)
Definition appendNew (known ids : list string) : list string :=
  foldl (λ acc k, if decide (k ∈ acc) then acc else acc ++ [k]) known ids.

(** Scanner states the component can be in: mounted, then any sequence of
    ingestion passes and session resets. *)
Inductive tracked (ABORTED : string) (Date_now : nat → Z) : Page.Scanner → Prop :=
  | tracked_initial : tracked ABORTED Date_now Spec.initialScanner
  | tracked_scan hasHydrated messages sc :
      tracked ABORTED Date_now sc →
      tracked ABORTED Date_now (Page.scanMessages ABORTED Date_now hasHydrated messages sc)
  | tracked_reset hasHydrated sc :
      tracked ABORTED Date_now sc →
      tracked ABORTED Date_now (Page.resetTracking Date_now hasHydrated sc).

(** What holds of the slot of [k], given whether a result of [k] was seen. *)
Definition slotCoherent (resultSeen : Prop) (k : string) (entry : Stored) : Prop :=
  statusOf entry ≠ error ∧
  (∀ d, durationOf entry = Some (Int d) → (0 ≤ d)%Z) ∧
  (durationOf entry = Some NaN → k ∈ prototypeMembers) ∧
  (resultSeen →
     statusOf entry = deriveStatusFromResult (resultOf entry) ∧
     is_Some (durationOf entry)) ∧
  (¬ resultSeen →
     ∃ e, entry = Registered e ∧ status e = running ∧
          result e = None ∧ durationMs e = None) ∧
  match entry with
  | Registered e => id e = k ∧ payloadKind (payload e) = toolName e
  | Residue _ _ _ => resultSeen
  end.

(** The store and the refs of the scanner agree. *)
Definition coherent (sc : Page.Scanner) : Prop :=
  Spec.consistent (Page.eventState sc) ∧
  ("" ∉ Page.seenCalls sc) ∧ ("" ∉ Page.seenResults sc) ∧
  (∀ k, is_Some (byId (Page.eventState sc) !! k) ↔
        k ∈ Page.seenResults sc ∨
        (k ∈ Page.seenCalls sc ∧ k ∉ prototypeMembers)) ∧
  (∀ k, is_Some (Page.callStart sc !! k) ↔
        k ∈ Page.seenCalls sc ∧ k ≠ "__proto__") ∧
  (∀ k entry, byId (Page.eventState sc) !! k = Some entry →
              slotCoherent (k ∈ Page.seenResults sc) k entry).

End Laws.

(** ** Sample inputs *)

Module Samples.

Import AgentEvents Page Spec.

Definition sampleEvent (k : string) (st : ToolEventStatus) : ToolEvent :=
  {| AgentEvents.id := k;
     AgentEvents.toolName := ToolBash;
     AgentEvents.timestamp := 1000;
     AgentEvents.status := st;
     AgentEvents.durationMs := None;
     AgentEvents.payload := PayloadBash "ls";
     AgentEvents.result := None |}.

(** A call [t1], a result for the untracked id [t2], then the result of [t1]. *)
Definition sampleState : EventState :=
  eventReducer 30
    (eventReducer 20
       (eventReducer 10 initialEventState (RegisterCall (sampleEvent "t1" running)))
       (RegisterResult "t2" success (Int 5) (Some (ResultText "ok"))))
    (RegisterResult "t1" aborted (Int 7) None).

(** [sampleState] after a further call, [t3], still running. *)
Definition runningState : EventState :=
  eventReducer 40 sampleState (RegisterCall (sampleEvent "t3" running)).

(** A clock that advances five milliseconds per reading. *)
Definition sampleClock (k : nat) : Z := 1700000000000 + 5 * Z.of_nat k.

Definition userMessage : Message :=
  {| messageId := "m1"; role := RoleUser; content := "list the files";
     parts := Some [TextPart "list the files"] |}.

Definition bashInvocation (k command : string) (st : InvocationState)
    (res : JsValue) : ToolInvocation :=
  {| toolCallId := k; toolName := "bash"; state := st;
     args := JObject {[ "command" := JString command ]};
     Page.result := res |}.

Definition callPart (k command : string) : MessagePart :=
  ToolInvocationPart (bashInvocation k command StateCall JUndefined).

Definition assistantMessage (ps : list MessagePart) : Message :=
  {| messageId := "m2"; role := RoleAssistant; content := ""; parts := Some ps |}.

(** One call, [t1], still waiting for its result. *)
Definition singleCallParts : list MessagePart :=
  [StepStartPart; TextPart "Running ls."; callPart "t1" "ls"].

Definition singleCallHistory : list Message :=
  [userMessage; assistantMessage singleCallParts].

(** [singleCallHistory] once the result of [t1] has arrived. *)
Definition singleCallAnswered : list Message :=
  [ userMessage;
    assistantMessage
      [ StepStartPart; TextPart "Running ls.";
        ToolInvocationPart
          (bashInvocation "t1" "ls" StateResult (JString "file1 file2")) ] ].

(** Two calls issued in one step, [t1] then [t2], both waiting. *)
Definition parallelCallParts : list MessagePart :=
  [StepStartPart; callPart "t1" "ls"; callPart "t2" "pwd"].

Definition parallelCallHistory : list Message :=
  [userMessage; assistantMessage parallelCallParts].

(** [parallelCallHistory] once [stop] has rewritten its last part. *)
Definition parallelCallStopped (ABORTED : string) : list Message :=
  [ userMessage;
    assistantMessage
      [ StepStartPart; callPart "t1" "ls";
        ToolInvocationPart (bashInvocation "t2" "pwd" StateResult (JString ABORTED)) ] ].

End Samples.

(** ** Sample runs of the scanner *)

Module SampleRuns.

Import AgentEvents Page Spec Samples.

(** The scanner after the call [t1] was seen, then its result. *)
Definition answeredScanner : Scanner :=
  scanMessages "User aborted" sampleClock true singleCallAnswered
    (scanMessages "User aborted" sampleClock true singleCallHistory initialScanner).

(** [singleCallAnswered] once [stop] has overwritten the result of [t1]. *)
Definition answeredThenStopped : list Message :=
  [ userMessage;
    assistantMessage
      [ StepStartPart; TextPart "Running ls.";
        ToolInvocationPart
          (bashInvocation "t1" "ls" StateResult (JString "User aborted")) ] ].

(** The one event of [answeredScanner]. *)
Definition answeredEvent : ToolEvent :=
  {| AgentEvents.id := "t1";
     AgentEvents.toolName := ToolBash;
     AgentEvents.timestamp := 1700000000000;
     AgentEvents.status := success;
     AgentEvents.durationMs := Some (Int 5);
     AgentEvents.payload := PayloadBash "ls";
     AgentEvents.result := Some (ResultText "file1 file2") |}.

(** The last message of [singleCallAnswered], its parts and last invocation. *)
Definition answeredInvocation : ToolInvocation :=
  bashInvocation "t1" "ls" StateResult (JString "file1 file2").

Definition answeredParts : list MessagePart :=
  [StepStartPart; TextPart "Running ls."; ToolInvocationPart answeredInvocation].

(** A later call occurrence that reuses the id [t1] with other arguments. *)
Definition reusedIdHistory : list Message :=
  [ userMessage; assistantMessage [callPart "t1" "rm -rf /tmp/x"; callPart "t4" "pwd"] ].

(** A result occurrence, with no call before it, whose id is the name of
    a member of [Object.prototype]. *)
Definition inheritedIdHistory : list Message :=
  [ userMessage;
    assistantMessage
      [ ToolInvocationPart
          (bashInvocation "toString" "ls" StateResult (JString "file1 file2")) ] ].

(** The scanner as mounted, after a pass over [inheritedIdHistory]. *)
Definition inheritedIdScanner : Scanner :=
  scanMessages "User aborted" sampleClock true inheritedIdHistory initialScanner.

(** What that pass leaves under [toString]. *)
Definition inheritedIdSlot : Stored :=
  Residue success NaN (Some (ResultText "file1 file2")).

End SampleRuns.

(** ** Shape checks *)

Module Shape.

Import AgentEvents.

Lemma asRecord_spec (value : JsValue) :
  asRecord value = match value with JObject fields => Some fields | _ => None end.
Proof.
  destruct value as [| |b|n|str|items|fields]; try reflexivity.
  - by destruct b.
  - unfold asRecord. cbn. by rewrite orb_true_r.
  - unfold asRecord. cbn. by rewrite orb_true_r.
Qed.

Lemma member_Own {A} (object : gmap string A) (key : string) (value : A) :
  member object key = Own value ↔ object !! key = Some value.
Proof.
  unfold member. destruct (object !! key); [|case_decide]; split; congruence.
Qed.

Lemma member_Inherited {A} (object : gmap string A) (key : string) :
  member object key = Inherited ↔ object !! key = None ∧ key ∈ prototypeMembers.
Proof.
  unfold member. destruct (object !! key); [|case_decide];
    split; try done; try (by intros []).
Qed.

Lemma member_Missing {A} (object : gmap string A) (key : string) :
  member object key = Missing ↔ object !! key = None ∧ key ∉ prototypeMembers.
Proof.
  unfold member. destruct (object !! key); [|case_decide];
    split; try done; try (by intros []).
Qed.

End Shape.

(** ** The event store *)

Module Reducer.

Import AgentEvents Spec Samples.

Lemma consistent_initial : consistent initialEventState.
Proof.
  split; [constructor|]. cbn. split; [|split].
  - intros k. rewrite elem_of_nil, lookup_empty. split; [done|by intros [? [=]]].
  - intros k. by rewrite elem_of_nil.
  - intros k st d r. by rewrite lookup_empty.
Qed.

(** A fresh id, not a name of [Object.prototype], gets an event and is
    appended. *)
Lemma consistent_append (s : EventState) (k : string) (e : ToolEvent) :
  consistent s → member (byId s) k = Missing →
  consistent {| byId := <[k := Registered e]> (byId s); order := order s ++ [k] |}.
Proof.
  intros (Hnd & Hdom & Hplain & Hres) [Hfresh Hk]%Shape.member_Missing.
  split; [|split; [|split]]; cbn.
  - apply NoDup_app. repeat split; [done | | apply NoDup_singleton].
    intros x Hx ->%list_elem_of_singleton.
    apply Hdom in Hx as [e' He']. congruence.
  - intros x. rewrite elem_of_app, list_elem_of_singleton, Hdom.
    destruct (decide (k = x)) as [->|Hne].
    + rewrite lookup_insert_eq. split; [by eexists|by right].
    + rewrite lookup_insert_ne by done. split; [intros [|]; [done|congruence]|by left].
  - intros x [Hx| ->%list_elem_of_singleton]%elem_of_app; [by apply Hplain|done].
  - intros x st d r. destruct (decide (k = x)) as [->|Hne].
    + by rewrite lookup_insert_eq.
    + rewrite lookup_insert_ne by done. apply Hres.
Qed.

(** A slot that is there, or an inherited member, is overwritten in place. *)
Lemma consistent_update (s : EventState) (k : string)
    (st : ToolEventStatus) (d : number) (r : option ToolResult) :
  consistent s → member (byId s) k ≠ Missing →
  consistent {| byId := <[k := updated (member (byId s) k) st d r]> (byId s);
                order := order s |}.
Proof.
  intros (Hnd & Hdom & Hplain & Hres) Hk.
  split; [done|]. split; [|split; [done|]]; cbn.
  - intros x. rewrite Hdom. destruct (decide (k = x)) as [<-|Hne];
      [|by rewrite lookup_insert_ne].
    rewrite lookup_insert_eq.
    destruct (member (byId s) k) as [[e|st0 d0 r0]| |] eqn:E; [| | |done].
    + apply Shape.member_Own in E. rewrite E. split; intros _; by eexists.
    + apply Shape.member_Own in E. rewrite E. split; by intros [? [=]].
    + apply Shape.member_Inherited in E as [E _]. rewrite E. split; by intros [? [=]].
  - intros x st' d' r'. destruct (decide (k = x)) as [<-|Hne];
      [|rewrite lookup_insert_ne by done; apply Hres].
    rewrite lookup_insert_eq.
    destruct (member (byId s) k) as [[e|st0 d0 r0]| |] eqn:E; [done| | |done].
    + apply Shape.member_Own in E. intros _. by eapply Hres.
    + apply Shape.member_Inherited in E as [_ E]. done.
Qed.

Lemma consistent_step now s a : consistent s → consistent (eventReducer now s a).
Proof.
  intros Hs. destruct a as [event|k st d r|]; unfold eventReducer.
  - destruct (member (byId s) (id event)) eqn:E; [done|done|].
    by apply consistent_append.
  - destruct (member (byId s) k) eqn:E; cbv beta iota zeta;
      [| |by apply consistent_append];
      rewrite <- E; apply consistent_update; [done|congruence|done|congruence].
  - apply consistent_initial.
Qed.

Lemma reachable_consistent s : reachable s → consistent s.
Proof.
  induction 1 as [|now s a _ IH]; [apply consistent_initial|].
  by apply consistent_step.
Qed.



Lemma sampleState_reachable : reachable sampleState.
Proof. repeat apply reachable_step. apply reachable_initial. Qed.


Lemma register_result_other now s k st d r k' :
  k' ≠ k →
  byId (eventReducer now s (RegisterResult k st d r)) !! k' = byId s !! k'.
Proof.
  intros Hne. cbn. destruct (member (byId s) k); cbn; by rewrite lookup_insert_ne.
Qed.

Lemma register_result_self now s k st d fresh :
  ∃ e, byId (eventReducer now s (RegisterResult k st d (Some fresh))) !! k = Some e ∧
       statusOf e = st ∧ durationOf e = Some d ∧ resultOf e = Some fresh.
Proof.
  cbn. destruct (member (byId s) k) as [[]| |]; cbn; rewrite lookup_insert_eq;
    by eexists.
Qed.

Lemma register_result_slot now s k st d r :
  ∃ e, byId (eventReducer now s (RegisterResult k st d r)) !! k = Some e ∧
       statusOf e = st.
Proof.
  cbn. destruct (member (byId s) k) as [[]| |]; cbn; rewrite lookup_insert_eq;
    by eexists.
Qed.


(** C5, at an id that names a member of [Object.prototype].  On the
    initial state [byId] has no event for [constructor], yet a
    register-result for [constructor] finds the inherited member, takes
    the update branch, leaves [order] empty and stores a slot with a
    status, a duration and a result only: no id, tool name, timestamp or
    payload.  The same action for the id [t7] synthesizes the event and
    appends [t7] to [order]. *)
Theorem register_result_inherited_member :
  let action k := RegisterResult k success (Int 5) (Some (ResultText "ok")) in
  let slipped := eventReducer 10 initialEventState (action "constructor") in
  let regular := eventReducer 10 initialEventState (action "t7") in
  byId initialEventState !! "constructor" = None ∧
  order slipped = [] ∧
  byId slipped !! "constructor"
    = Some (Residue success (Int 5) (Some (ResultText "ok"))) ∧
  order regular = ["t7"] ∧
  byId regular !! "t7"
    = Some (Registered
              {| id := "t7"; toolName := ToolUnknown; timestamp := 10;
                 status := success; durationMs := Some (Int 5);
                 payload := PayloadUnknown ∅;
                 result := Some (ResultText "ok") |}).
Proof. by repeat split. Qed.

(** C6, as the code has it.  For an event whose id has no entry in [byId]
    and is not a name of [Object.prototype], register-call appends the id
    to [order] and maps it in [byId] to the event as dispatched, every
    field untouched; the stored status is [running] when the dispatched
    event carries [running]. *)
Theorem register_call_fresh (now : Z) (s : EventState) (event : ToolEvent) :
  byId s !! id event = None →
  id event ∉ prototypeMembers →
  let s' := eventReducer now s (RegisterCall event) in
  order s' = order s ++ [id event] ∧
  byId s' !! id event = Some (Registered event) ∧
  (status event = running → statusOf <$> byId s' !! id event = Some running).
Proof.
  intros Hfresh Hplain. cbn.
  rewrite (proj2 (Shape.member_Missing _ _)) by done. cbn.
  rewrite lookup_insert_eq.
  split; [done|]. split; [done|]. by intros <-.
Qed.

Lemma sample_id_plain : "t9" ∉ prototypeMembers.
Proof.
  unfold prototypeMembers. rewrite !not_elem_of_cons.
  repeat split; try done. apply not_elem_of_nil.
Qed.

Lemma register_call_fresh_witness :
  let event := sampleEvent "t9" running in
  let s' := eventReducer 40 sampleState (RegisterCall event) in
  order s' = ["t1"; "t2"; "t9"] ∧
  byId s' !! "t9" = Some (Registered event) ∧
  (status event = running → statusOf <$> byId s' !! "t9" = Some running).
Proof.
  destruct (register_call_fresh 40 sampleState (sampleEvent "t9" running)
              eq_refl sample_id_plain)
    as (Horder & Hevent & Hstatus).
  split; [exact Horder|]. split; [exact Hevent|]. intros _. exact (Hstatus eq_refl).
Defined.

(** C6, as stated, fails: the reducer stores the status the event carries. *)
Lemma register_call_status_counterexample :
  let event := sampleEvent "t1" success in
  let s' := eventReducer 10 initialEventState (RegisterCall event) in
  byId initialEventState !! id event = None ∧
  order s' = ["t1"] ∧
  statusOf <$> byId s' !! "t1" = Some success ∧
  statusOf <$> byId s' !! "t1" ≠ Some running.
Proof. by repeat split. Qed.

(** A register-call whose id has a slot, or names an inherited member,
    returns its state. *)
Lemma register_call_found now s event :
  member (byId s) (id event) ≠ Missing → eventReducer now s (RegisterCall event) = s.
Proof. intros H. cbn. by destruct (member (byId s) (id event)). Qed.

(** On the initial state a register-call whose id is [toString] finds the
    inherited member and registers nothing. *)
Example register_call_inherited_member :
  byId initialEventState !! "toString" = None ∧
  eventReducer 10 initialEventState (RegisterCall (sampleEvent "toString" running))
    = initialEventState.
Proof. by split. Qed.

Lemma register_call_known now s event :
  is_Some (byId s !! id event) → eventReducer now s (RegisterCall event) = s.
Proof.
  intros [e He]. apply register_call_found.
  by rewrite (proj2 (Shape.member_Own _ _ _) He).
Qed.

(** C7. Two register-call actions whose events have the same id, dispatched
    one after the other, leave the state the first one produced; and a
    register-call for an id [byId] already has returns its state. *)
Theorem register_call_idempotent (now1 now2 : Z) (s : EventState)
    (first second : ToolEvent) :
  id first = id second →
  eventReducer now2 (eventReducer now1 s (RegisterCall first)) (RegisterCall second)
    = eventReducer now1 s (RegisterCall first) ∧
  (is_Some (byId s !! id first) → eventReducer now1 s (RegisterCall first) = s).
Proof.
  intros Hid. split; [|apply register_call_known].
  apply register_call_found. rewrite <- Hid. cbn.
  destruct (member (byId s) (id first)) eqn:E; cbn; [by rewrite E..|].
  by rewrite (proj2 (Shape.member_Own _ _ _) (lookup_insert_eq _ _ _)).
Qed.

Lemma register_call_idempotent_witness :
  let first := sampleEvent "t3" running in
  let second := sampleEvent "t3" error in
  let once := eventReducer 50 sampleState (RegisterCall first) in
  eventReducer 60 once (RegisterCall second) = once ∧
  (is_Some (byId sampleState !! "t3") → once = sampleState).
Proof.
  exact (register_call_idempotent 50 60 sampleState
           (sampleEvent "t3" running) (sampleEvent "t3" error) eq_refl).
Defined.

End Reducer.

(** ** The result classifier *)

Module Classifier.

Import AgentEvents Spec.

Lemma parseToolResult_string (ABORTED s : string) :
  parseToolResult ABORTED (JString s) =
    Some (if decide (s = ABORTED) then ResultAborted s else ResultText s).
Proof. cbn. by case_decide. Qed.

Lemma parseToolResult_text_object (ABORTED t : string) (fields : gmap string JsValue) :
  fields !! "type" = Some (JString "text") →
  fields !! "text" = Some (JString t) →
  parseToolResult ABORTED (JObject fields) =
    Some (if decide (t = ABORTED) then ResultAborted t else ResultText t).
Proof.
  intros Htype Htext. unfold parseToolResult. rewrite Shape.asRecord_spec. cbn.
  unfold prop. rewrite Htype, Htext. cbn.
  rewrite bool_decide_eq_false_2, bool_decide_eq_true_2 by done.
  by case_decide.
Qed.

Lemma parseToolResult_None (ABORTED : string) (value : JsValue) :
  parseToolResult ABORTED value = None → value = JUndefined ∨ value = JNull.
Proof.
  destruct value; [by left | by right | ..];
    unfold parseToolResult; repeat case_match; discriminate.
Qed.

Lemma parseToolResult_object (ABORTED : string) (fields : gmap string JsValue) :
  parseToolResult ABORTED (JObject fields) =
    Some match fields !! "type" with
         | Some (JString tag) =>
             if decide (tag = "image") then
               match fields !! "data" with
               | Some (JString data) => ResultImage data
               | _ => ResultUnknown (JObject fields)
               end
             else if decide (tag = "text") then
               match fields !! "text" with
               | Some (JString t) =>
                   if decide (t = ABORTED) then ResultAborted t else ResultText t
               | _ => ResultUnknown (JObject fields)
               end
             else ResultUnknown (JObject fields)
         | _ => ResultUnknown (JObject fields)
         end.
Proof.
  unfold parseToolResult. rewrite Shape.asRecord_spec. cbn. unfold prop.
  destruct (fields !! "type") as [[| | | |tag| |]|]; cbn; try done.
  destruct (decide (tag = "image")) as [->|Himage].
  { cbn. by destruct (fields !! "data") as [[]|]. }
  rewrite bool_decide_eq_false_2 by done.
  destruct (decide (tag = "text")) as [->|Htext].
  - rewrite bool_decide_eq_true_2 by done.
    destruct (fields !! "text") as [[]|]; cbn; try done. by case_decide.
  - by rewrite bool_decide_eq_false_2 by done.
Qed.

(** C2, as the code has it.  The sentinel string itself, and every object
    whose discriminant [type] is ["text"] and whose [text] field is the
    sentinel, whatever other fields it has, is classified [aborted], and
    the status derived from that result is [aborted].  An object whose
    [text] field is the sentinel but whose discriminant is not ["text"]
    is not classified [aborted]: its derived status is [success]. *)
Theorem sentinel_classified_aborted (ABORTED : string) (raw : JsValue) :
  ((raw = JString ABORTED ∨
    ∃ fields, raw = JObject fields ∧
              fields !! "type" = Some (JString "text") ∧
              fields !! "text" = Some (JString ABORTED)) →
   parseToolResult ABORTED raw = Some (ResultAborted ABORTED) ∧
   deriveStatusFromResult (parseToolResult ABORTED raw) = aborted) ∧
  (∀ fields,
     raw = JObject fields →
     fields !! "text" = Some (JString ABORTED) →
     fields !! "type" ≠ Some (JString "text") →
     (∀ t, parseToolResult ABORTED raw ≠ Some (ResultAborted t)) ∧
     deriveStatusFromResult (parseToolResult ABORTED raw) = success).
Proof.
  split.
  - intros [->|(fields & -> & Htype & Htext)].
    + rewrite parseToolResult_string. by rewrite decide_True.
    + rewrite (parseToolResult_text_object _ ABORTED) by done.
      by rewrite decide_True.
  - intros fields -> Htext Htype. rewrite parseToolResult_object.
    destruct (fields !! "type") as [[| | | |tag| |]|]; try done.
    destruct (decide (tag = "image")) as [->|Himage].
    { by destruct (fields !! "data") as [[]|]. }
    destruct (decide (tag = "text")) as [->|Hnot]; [done|]. done.
Qed.

Lemma sentinel_classified_aborted_witness :
  let raw := JObject {[ "type" := JString "text"; "text" := JString "User aborted";
                        "is_error" := JBool true ]} in
  let bare := JObject {[ "text" := JString "User aborted" ]} in
  (parseToolResult "User aborted" raw = Some (ResultAborted "User aborted") ∧
   deriveStatusFromResult (parseToolResult "User aborted" raw) = aborted) ∧
  ((∀ t, parseToolResult "User aborted" bare ≠ Some (ResultAborted t)) ∧
   deriveStatusFromResult (parseToolResult "User aborted" bare) = success).
Proof.
  split.
  - apply (proj1 (sentinel_classified_aborted "User aborted" _)).
    right. eexists. split; [reflexivity|]. split; reflexivity.
  - apply (proj2 (sentinel_classified_aborted "User aborted" _) _ eq_refl);
      [reflexivity|discriminate].
Defined.

(** C2, as stated, fails: an object whose [text] field is the sentinel but
    whose discriminant is not ["text"] is classified [unknown], and one
    that is a well-formed image stays an image; both derive [success]. *)
Lemma sentinel_other_discriminant_counterexample :
  let ABORTED := "User aborted" in
  let bare := JObject {[ "text" := JString ABORTED ]} in
  let image := JObject {[ "type" := JString "image"; "data" := JString "abc123";
                          "text" := JString ABORTED ]} in
  carriesSentinel ABORTED bare ∧
  parseToolResult ABORTED bare = Some (ResultUnknown bare) ∧
  deriveStatusFromResult (parseToolResult ABORTED bare) = success ∧
  carriesSentinel ABORTED image ∧
  parseToolResult ABORTED image = Some (ResultImage "abc123") ∧
  deriveStatusFromResult (parseToolResult ABORTED image) = success.
Proof.
  cbv zeta. split; [right; eexists; split; reflexivity|].
  split; [reflexivity|]. split; [reflexivity|].
  split; [right; eexists; split; reflexivity|].
  split; reflexivity.
Qed.

(** An image object is classified as an image and derives [success]. *)
Example classify_image (ABORTED : string) :
  let raw := JObject {[ "type" := JString "image"; "data" := JString "abc123" ]} in
  parseToolResult ABORTED raw = Some (ResultImage "abc123") ∧
  deriveStatusFromResult (parseToolResult ABORTED raw) = success.
Proof. by split. Qed.

(** C8. [deriveStatusFromResult] is [aborted] exactly on a present result of
    type [aborted]; it is [success] on an absent result and on every
    text, image and unknown result; it is never [error] nor [running]. *)
Theorem deriveStatusFromResult_spec (result : option ToolResult) :
  (deriveStatusFromResult result = aborted ↔ ∃ t, result = Some (ResultAborted t)) ∧
  (deriveStatusFromResult result = success ↔ ¬ ∃ t, result = Some (ResultAborted t)) ∧
  deriveStatusFromResult None = success ∧
  (∀ t, deriveStatusFromResult (Some (ResultText t)) = success) ∧
  (∀ data, deriveStatusFromResult (Some (ResultImage data)) = success) ∧
  (∀ raw, deriveStatusFromResult (Some (ResultUnknown raw)) = success) ∧
  deriveStatusFromResult result ≠ error ∧
  deriveStatusFromResult result ≠ running.
Proof.
  repeat split; try done.
  - destruct result as [[]|]; try done. by eexists.
  - by intros [t ->].
  - intros H [t ->]. done.
  - intros H. destruct result as [[]|]; try done. destruct H. by eexists.
  - by destruct result as [[]|].
  - by destruct result as [[]|].
Qed.

(** C10. When the sentinel is not the empty string, the empty string is
    classified as a present [text] result with empty text, whose derived
    status is [success]; whatever the sentinel, [undefined] and [null]
    are the only raw values with no [ToolResult]. *)
Theorem empty_string_is_text (ABORTED : string) :
  ABORTED ≠ "" →
  parseToolResult ABORTED (JString "") = Some (ResultText "") ∧
  deriveStatusFromResult (parseToolResult ABORTED (JString "")) = success ∧
  (∀ raw, parseToolResult ABORTED raw = None ↔ raw = JUndefined ∨ raw = JNull).
Proof.
  intros Hne.
  rewrite parseToolResult_string, decide_False by done.
  split; [done|]. split; [done|].
  intros raw. split.
  - apply parseToolResult_None.
  - by intros [->| ->].
Qed.

Lemma empty_string_is_text_witness :
  parseToolResult "User aborted" (JString "") = Some (ResultText "") ∧
  deriveStatusFromResult (parseToolResult "User aborted" (JString "")) = success ∧
  (∀ raw, parseToolResult "User aborted" raw = None ↔ raw = JUndefined ∨ raw = JNull).
Proof. apply (empty_string_is_text "User aborted"). discriminate. Defined.

End Classifier.

(** ** The payload normalizer *)

Module Normalizer.

Import AgentEvents Spec.

Lemma computer_payload_action (args : JsValue) :
  ∃ p, parseToolPayload "computer" args = PayloadComputer p ∧
       action p = default "unknown" (suppliedAction args).
Proof.
  unfold parseToolPayload. rewrite Shape.asRecord_spec.
  rewrite decide_False, decide_True by done.
  eexists. split; [reflexivity|]. cbn. unfold suppliedAction, nullish, prop.
  destruct args as [| | | | | |fields]; try reflexivity.
  cbn. by destruct (fields !! "action") as [[]|].
Qed.

(** C3, as the code has it.  For tool-kind ["computer"] every arguments
    value yields a computer payload whose [action] is the string the
    arguments supply in their [action] field, passed through as it is, and
    [unknown] when they supply none (not a non-array object, or no string
    under [action]).  Hence the action is one of the ten listed values
    exactly when the supplied string, or [unknown] in its absence, is. *)
Theorem computer_action_passthrough (args : JsValue) :
  ∃ p, parseToolPayload "computer" args = PayloadComputer p ∧
       action p = match suppliedAction args with
                  | Some supplied => supplied
                  | None => "unknown"
                  end ∧
       (action p ∈ ComputerAction ↔
        match suppliedAction args with
        | Some supplied => supplied ∈ ComputerAction
        | None => True
        end).
Proof.
  destruct (computer_payload_action args) as (p & Hp & Ha).
  exists p. split; [done|]. rewrite Ha.
  destruct (suppliedAction args) as [supplied|]; cbn; [done|].
  split; [done|]. split; [done|]. intros _. unfold ComputerAction.
  rewrite !elem_of_cons. tauto.
Qed.

(** C3, as stated, fails: a string outside the ten values is kept. *)
Lemma computer_action_counterexample :
  let args := JObject {[ "action" := JString "triple_click" ]} in
  parseToolPayload "computer" args =
    PayloadComputer {| action := "triple_click"; coordinate := None; text := None;
                       duration := None; scroll_amount := None;
                       scroll_direction := None |} ∧
  ("triple_click" ∉ ComputerAction) ∧
  "triple_click" ≠ "unknown".
Proof.
  cbv zeta. split; [reflexivity|]. split; [|done].
  unfold ComputerAction. rewrite !elem_of_cons, elem_of_nil.
  intros H. repeat destruct H as [H|H]; done.
Qed.

(** A click with its coordinate; the other optional fields stay absent. *)
Example normalize_left_click :
  parseToolPayload "computer"
    (JObject {[ "action" := JString "left_click";
                "coordinate" := JArray [JNumber 10%float; JNumber 20%float] ]})
  = PayloadComputer {| action := "left_click";
                       coordinate := Some (10%float, 20%float);
                       text := None; duration := None; scroll_amount := None;
                       scroll_direction := None |}.
Proof. reflexivity. Qed.

(** A bash call without a command gets the empty command. *)
Example normalize_bash_without_command :
  parseToolPayload "bash" (JObject ∅) = PayloadBash "" ∧
  parseToolPayload "bash" JNull = PayloadBash "" ∧
  parseToolPayload "bash" (JObject {[ "command" := JString "ls" ]}) = PayloadBash "ls".
Proof. by repeat split. Qed.

(** C4, as the code has it.  For a tool-kind label other than ["bash"] and
    ["computer"] the payload is the [unknown] variant; its [raw] is the
    arguments value when that is a non-array object, and the empty object
    for every other arguments value. *)
Theorem unknown_tool_payload (toolName : string) (args : JsValue) :
  toolName ≠ "bash" → toolName ≠ "computer" →
  parseToolPayload toolName args =
    PayloadUnknown match args with JObject fields => fields | _ => ∅ end ∧
  (∀ fields, args = JObject fields →
     parseToolPayload toolName args = PayloadUnknown fields).
Proof.
  intros Hbash Hcomputer.
  assert (parseToolPayload toolName args =
          PayloadUnknown match args with JObject fields => fields | _ => ∅ end) as Heq.
  { unfold parseToolPayload. rewrite !decide_False by done.
    rewrite Shape.asRecord_spec. by destruct args. }
  split; [done|]. intros fields ->. done.
Qed.

Lemma unknown_tool_payload_witness :
  let fields : gmap string JsValue := {[ "url" := JString "https://example.org" ]} in
  parseToolPayload "browser" (JObject fields) = PayloadUnknown fields ∧
  (∀ fields', JObject fields = JObject fields' →
     parseToolPayload "browser" (JObject fields) = PayloadUnknown fields').
Proof.
  exact (unknown_tool_payload "browser"
           (JObject {[ "url" := JString "https://example.org" ]})
           ltac:(discriminate) ltac:(discriminate)).
Defined.

(** C4, as stated, fails: arguments that are not a non-array object are
    replaced by the empty object, so the original value is not in [raw]. *)
Lemma unknown_tool_payload_counterexample :
  parseToolPayload "browser" (JString "https://example.org") = PayloadUnknown ∅ ∧
  parseToolPayload "browser" (JArray [JString "a"; JString "b"]) = PayloadUnknown ∅ ∧
  JObject ∅ ≠ JString "https://example.org" ∧
  JObject ∅ ≠ JArray [JString "a"; JString "b"].
Proof. by repeat split. Qed.

End Normalizer.

(** ** The ingestion scanner and the stop handler *)

Module Ingestion.

Import AgentEvents Page Spec.

Section WithEnvironment.

Variable ABORTED : string.
Variable Date_now : nat → Z.

Abbreviation scanPart := (Page.scanPart ABORTED Date_now).
Abbreviation scanMessage := (Page.scanMessage ABORTED Date_now).
Abbreviation scanMessages := (Page.scanMessages ABORTED Date_now).

Lemma grows_refl sc : grows sc sc.
Proof. by split. Qed.

Lemma grows_trans sc1 sc2 sc3 : grows sc1 sc2 → grows sc2 sc3 → grows sc1 sc3.
Proof. intros [] []. split; set_solver. Qed.

Lemma scanCall_grows sc inv : grows sc (scanCall Date_now sc inv).
Proof.
  unfold scanCall. destruct (Page.state inv); [|apply grows_refl].
  case_decide; [apply grows_refl|]. split; cbn; set_solver.
Qed.

Lemma scanResult_grows sc inv : grows sc (scanResult ABORTED Date_now sc inv).
Proof.
  unfold scanResult. destruct (Page.state inv); [apply grows_refl|].
  case_decide; [apply grows_refl|].
  destruct (member (callStart sc) (toolCallId inv)); split; cbn; set_solver.
Qed.

Lemma scanPart_grows sc part : grows sc (scanPart sc part).
Proof.
  destruct part as [|inv|]; cbn; try apply grows_refl.
  case_decide; [apply grows_refl|].
  eapply grows_trans; [apply scanCall_grows | apply scanResult_grows].
Qed.

Lemma scanParts_grows ps sc : grows sc (foldl scanPart sc ps).
Proof.
  revert sc. induction ps as [|part ps IH]; intros sc; cbn; [apply grows_refl|].
  eapply grows_trans; [apply scanPart_grows | apply IH].
Qed.

Lemma scanMessage_grows sc m : grows sc (scanMessage sc m).
Proof.
  unfold Page.scanMessage. destruct (parts m); [apply scanParts_grows | apply grows_refl].
Qed.

Lemma observed_grows sc sc' part : grows sc sc' → observed sc part → observed sc' part.
Proof.
  intros [Hc Hr]. destruct part as [|inv|]; cbn; try done.
  intros [|H]; [by left|right]. destruct (Page.state inv); set_solver.
Qed.

Lemma scanPart_observed sc part : observed (scanPart sc part) part.
Proof.
  destruct part as [|inv|]; cbn; try done.
  case_decide; [by left|right].
  unfold scanResult, scanCall. destruct (Page.state inv) eqn:Hstate.
  - case_decide; [done|]. cbn. set_solver.
  - case_decide; [done|].
    destruct (member (callStart sc) (toolCallId inv)); cbn; set_solver.
Qed.

Lemma scanPart_settled sc part : observed sc part → scanPart sc part = sc.
Proof.
  destruct part as [|inv|]; cbn; try done.
  intros [Hempty|Hseen]; [by rewrite decide_True|].
  case_decide; [done|]. unfold scanResult, scanCall.
  destruct (Page.state inv); by rewrite decide_True.
Qed.

Lemma scanParts_settled ps sc : Forall (observed sc) ps → foldl scanPart sc ps = sc.
Proof.
  induction 1 as [|part ps Hpart _ IH]; cbn; [done|].
  by rewrite scanPart_settled.
Qed.

Lemma scanParts_observed ps sc : Forall (observed (foldl scanPart sc ps)) ps.
Proof.
  revert sc. induction ps as [|part ps IH]; intros sc; cbn; constructor; [|apply IH].
  eapply observed_grows; [apply scanParts_grows | apply scanPart_observed].
Qed.

Lemma settled_grows sc sc' ms : grows sc sc' → settled sc ms → settled sc' ms.
Proof.
  intros Hg Hs. eapply Forall_impl; [exact Hs|]. intros m Hm ps Hps.
  eapply Forall_impl; [by apply Hm|]. intros part. by apply observed_grows.
Qed.

Lemma scan_settled_noop ms sc : settled sc ms → foldl scanMessage sc ms = sc.
Proof.
  induction 1 as [|m ms Hm _ IH]; cbn; [done|].
  assert (scanMessage sc m = sc) as ->; [|done].
  unfold Page.scanMessage. destruct (parts m) as [ps|]; [|done].
  by apply scanParts_settled, Hm.
Qed.

Lemma scan_grows ms sc : grows sc (foldl scanMessage sc ms).
Proof.
  revert sc. induction ms as [|m ms IH]; intros sc; cbn; [apply grows_refl|].
  eapply grows_trans; [apply scanMessage_grows | apply IH].
Qed.

Lemma scan_settles ms sc : settled (foldl scanMessage sc ms) ms.
Proof.
  revert sc. induction ms as [|m ms IH]; intros sc; cbn; constructor; [|apply IH].
  intros ps Hps. apply (Forall_impl (observed (scanMessage sc m))).
  - unfold Page.scanMessage. rewrite Hps. apply scanParts_observed.
  - intros part. apply observed_grows, scan_grows.
Qed.

(** Rescanning an unchanged history dispatches nothing. *)
Lemma rescan_unchanged hasHydrated ms sc :
  scanMessages hasHydrated ms (scanMessages hasHydrated ms sc)
    = scanMessages hasHydrated ms sc.
Proof.
  unfold Page.scanMessages. destruct hasHydrated; [|done].
  apply scan_settled_noop, scan_settles.
Qed.

(** Switching session empties the store and the three refs together. *)
Lemma resetTracking_initial sc :
  resetTracking Date_now true sc =
    {| eventState := initialEventState; seenCalls := ∅; seenResults := ∅;
       callStart := ∅; reads := reads sc |}.
Proof. reflexivity. Qed.

(** The event a first call occurrence registers is in [running] status. *)
Lemma scanCall_registers_running sc inv :
  Page.state inv = StateCall →
  toolCallId inv ∉ seenCalls sc →
  byId (eventState sc) !! toolCallId inv = None →
  toolCallId inv ∉ prototypeMembers →
  ∃ e, byId (eventState (scanCall Date_now sc inv)) !! toolCallId inv
         = Some (Registered e) ∧
       status e = running ∧
       payload e = parseToolPayload (Page.toolName inv) (args inv) ∧
       order (eventState (scanCall Date_now sc inv))
         = order (eventState sc) ++ [toolCallId inv].
Proof.
  intros Hstate Hnew Hfresh Hplain. unfold scanCall.
  rewrite Hstate, decide_False by done. cbn.
  rewrite (proj2 (Shape.member_Missing _ _)) by done. cbn.
  rewrite lookup_insert_eq. by eexists.
Qed.

Lemma stop_last_invocation ms prev m ps inv :
  last ms = Some m → role m = RoleAssistant → parts m = Some ps →
  last ps = Some (ToolInvocationPart inv) →
  stop ABORTED ms prev = Some (removelast prev ++ [abortedLast ABORTED m ps inv]).
Proof.
  intros Hm Hrole Hps Hinv. unfold stop, abortedLast.
  by rewrite Hm, Hps, Hrole, Hinv.
Qed.

Lemma scan_aborted_last sc init m psinit inv :
  settled sc (init ++ [m]) →
  parts m = Some (psinit ++ [ToolInvocationPart inv]) →
  toolCallId inv ≠ "" → toolCallId inv ∉ seenResults sc →
  ∃ now d,
    eventState
      (scanMessages true
         (init ++ [abortedLast ABORTED m (psinit ++ [ToolInvocationPart inv]) inv]) sc)
    = eventReducer now (eventState sc)
        (RegisterResult (toolCallId inv) aborted d (Some (ResultAborted ABORTED))).
Proof.
  intros Hs Hps Hid Hunseen. unfold settled in Hs.
  apply Forall_app in Hs as [Hinit Hm]. rewrite Forall_singleton in Hm.
  specialize (Hm _ Hps). apply Forall_app in Hm as [Hpsinit _].
  unfold Page.scanMessages. rewrite foldl_app, (scan_settled_noop init sc Hinit).
  cbn [foldl]. unfold Page.scanMessage, abortedLast. cbn [parts].
  rewrite removelast_last, foldl_app, (scanParts_settled psinit sc Hpsinit).
  cbn [foldl Page.scanPart toolCallId]. rewrite decide_False by done.
  unfold scanResult, scanCall. cbn [Page.state toolCallId Page.result].
  rewrite decide_False by done.
  rewrite Classifier.parseToolResult_string, decide_True by done.
  destruct (member (callStart sc) (toolCallId inv)); cbn; by do 2 eexists.
Qed.

(** C9, as the code has it.  Once the scanner has processed the history,
    if the last part of the last message, an assistant message, is a tool
    invocation with a non-empty id whose result the scanner has not seen,
    then [stop] replaces that part by a result occurrence carrying the
    sentinel, and after the next scan the event of that id is [aborted]
    with an [aborted] result, every other event is as it was, and so no
    event is left [running] exactly when no other event was [running].
    The [setMessages] updater is applied to the history [stop] has read. *)
Theorem stop_aborts_last_call (ms : list Message) (sc0 : Scanner) (m : Message)
    (ps : list MessagePart) (inv : ToolInvocation) :
  let sc := scanMessages true ms sc0 in
  last ms = Some m → role m = RoleAssistant → parts m = Some ps →
  last ps = Some (ToolInvocationPart inv) →
  toolCallId inv ≠ "" → toolCallId inv ∉ seenResults sc →
  let ms' := removelast ms ++ [abortedLast ABORTED m ps inv] in
  let sc' := scanMessages true ms' sc in
  stop ABORTED ms ms = Some ms' ∧
  (∃ e, byId (eventState sc') !! toolCallId inv = Some e ∧
        statusOf e = aborted ∧ resultOf e = Some (ResultAborted ABORTED)) ∧
  (∀ k, k ≠ toolCallId inv →
        byId (eventState sc') !! k = byId (eventState sc) !! k) ∧
  (noneRunning (eventState sc') ↔
   ∀ k e, k ≠ toolCallId inv → byId (eventState sc) !! k = Some e →
          statusOf e ≠ running).
Proof.
  intros sc Hm Hrole Hps Hinv Hid Hunseen.
  assert (settled sc ms) as Hsettled by apply scan_settles.
  clearbody sc. cbv zeta.
  split; [by apply stop_last_invocation|].
  apply last_Some in Hm as [init ->]. apply last_Some in Hinv as [psinit ->].
  rewrite removelast_last.
  destruct (scan_aborted_last sc init m psinit inv) as (now & d & ->); try done.
  destruct (Reducer.register_result_self now (eventState sc) (toolCallId inv)
              aborted d (ResultAborted ABORTED)) as (e & He & Hst & _ & Hres).
  split; [by exists e|].
  split; [intros k; apply Reducer.register_result_other|].
  split.
  - intros Hnone k e' Hne He'. apply (Hnone k).
    by rewrite Reducer.register_result_other.
  - intros Hothers k e' He'. destruct (decide (k = toolCallId inv)) as [->|Hne].
    + rewrite He in He'. injection He' as <-. by rewrite Hst.
    + rewrite Reducer.register_result_other in He' by done. by eapply Hothers.
Qed.

End WithEnvironment.

End Ingestion.

(** ** The pipeline on sample histories *)

Module StopScenarios.

Import AgentEvents Page Spec Samples.

(** A bash call [t1] followed by its result: one event, first [running],
    then [success] with a text result and a non-negative duration. *)
Example call_then_result :
  let ABORTED := "User aborted" in
  let called := scanMessages ABORTED sampleClock true singleCallHistory initialScanner in
  let answered := scanMessages ABORTED sampleClock true singleCallAnswered called in
  byId (eventState called) !! "t1" =
    Some (Registered
            {| AgentEvents.id := "t1";
               AgentEvents.toolName := ToolBash;
               AgentEvents.timestamp := 1700000000000%Z;
               AgentEvents.status := running;
               AgentEvents.durationMs := None;
               AgentEvents.payload := PayloadBash "ls";
               AgentEvents.result := None |}) ∧
  byId (eventState answered) !! "t1" =
    Some (Registered
            {| AgentEvents.id := "t1";
               AgentEvents.toolName := ToolBash;
               AgentEvents.timestamp := 1700000000000%Z;
               AgentEvents.status := success;
               AgentEvents.durationMs := Some (Int 5);
               AgentEvents.payload := PayloadBash "ls";
               AgentEvents.result := Some (ResultText "file1 file2") |}) ∧
  order (eventState answered) = ["t1"].
Proof. by repeat split. Qed.

Lemma stop_aborts_last_call_witness :
  let ABORTED := "User aborted" in
  let sc := scanMessages ABORTED sampleClock true singleCallHistory initialScanner in
  let ms' :=
    [ userMessage;
      assistantMessage
        [ StepStartPart; TextPart "Running ls.";
          ToolInvocationPart (bashInvocation "t1" "ls" StateResult (JString ABORTED)) ] ] in
  let sc' := scanMessages ABORTED sampleClock true ms' sc in
  stop ABORTED singleCallHistory singleCallHistory = Some ms' ∧
  (∃ e, byId (eventState sc') !! "t1" = Some e ∧
        statusOf e = aborted ∧ resultOf e = Some (ResultAborted ABORTED)) ∧
  (∀ k, k ≠ "t1" → byId (eventState sc') !! k = byId (eventState sc) !! k) ∧
  (noneRunning (eventState sc') ↔
   ∀ k e, k ≠ "t1" → byId (eventState sc) !! k = Some e → statusOf e ≠ running).
Proof.
  apply (Ingestion.stop_aborts_last_call "User aborted" sampleClock
           singleCallHistory initialScanner
           (assistantMessage singleCallParts) singleCallParts
           (bashInvocation "t1" "ls" StateCall JUndefined)).
  - reflexivity.
  - reflexivity.
  - reflexivity.
  - reflexivity.
  - discriminate.
  - vm_compute. discriminate.
Defined.

(** C9, as stated, fails: with two calls pending in the last message, [t2]
    the most recent, [stop] aborts [t2] only; after the next scan the event
    of [t1] is still [running]. *)
Lemma stop_parallel_calls_counterexample :
  let ABORTED := "User aborted" in
  let sc := scanMessages ABORTED sampleClock true parallelCallHistory initialScanner in
  let sc' := scanMessages ABORTED sampleClock true (parallelCallStopped ABORTED) sc in
  order (eventState sc) = ["t1"; "t2"] ∧
  statusOf <$> byId (eventState sc) !! "t2" = Some running ∧
  ("t2" ∉ seenResults sc) ∧
  stop ABORTED parallelCallHistory parallelCallHistory
    = Some (parallelCallStopped ABORTED) ∧
  statusOf <$> byId (eventState sc') !! "t2" = Some aborted ∧
  statusOf <$> byId (eventState sc') !! "t1" = Some running ∧
  ¬ noneRunning (eventState sc').
Proof.
  cbv zeta. split; [reflexivity|]. split; [reflexivity|].
  split; [vm_compute; discriminate|]. split; [reflexivity|].
  split; [reflexivity|]. split; [reflexivity|].
  intros Hnone.
  eapply (Hnone "t1"); [vm_compute; reflexivity | reflexivity].
Qed.

End StopScenarios.

Set Warnings "-clear-no-such-hyp".

(** ** Laws of the event store *)

Module ReducerLaws.

Import AgentEvents Spec Laws Views Samples.

Lemma extends_refl s : extends s s.
Proof. split; [done|]. split; [done|]. intros k e He. by exists e. Qed.

Lemma extends_trans s1 s2 s3 : extends s1 s2 → extends s2 s3 → extends s1 s3.
Proof.
  intros (Ho1 & Hs1 & He1) (Ho2 & Hs2 & He2). split; [by etrans|].
  split; [intros k Hk; by apply Hs2, Hs1|].
  intros k e He. destruct (He1 k e He) as (e2 & Hk2 & ? & ? & ? & ?).
  destruct (He2 k e2 Hk2) as (e3 & Hk3 & ? & ? & ? & ?).
  exists e3. repeat split; [done|congruence..].
Qed.

Lemma step_extends now s a : isReset a = false → extends s (eventReducer now s a).
Proof.
  intros Ha. destruct a as [event|k st d r|]; [| |done]; unfold eventReducer.
  - destruct (member (byId s) (id event)) eqn:E; try apply extends_refl.
    apply Shape.member_Missing in E as [E _].
    split; cbn; [by apply prefix_app_r|]. split.
    + intros k Hk. rewrite lookup_insert_is_Some. destruct (decide (id event = k)); auto.
    + intros k e He. exists e. rewrite lookup_insert_ne by congruence. done.
  - assert (∀ entry,
      (∀ e, member (byId s) k = Own (Registered e) →
            ∃ e', entry = Registered e' ∧ id e' = id e ∧ toolName e' = toolName e ∧
                  timestamp e' = timestamp e ∧ payload e' = payload e) →
      extends s {| byId := <[k := entry]> (byId s); order := order s |}) as Hinsert.
    { intros entry Hentry. split; [done|]. cbn. split.
      - intros k' Hk'. rewrite lookup_insert_is_Some. destruct (decide (k = k')); auto.
      - intros k' e He. destruct (decide (k = k')) as [<-|Hne].
        + rewrite lookup_insert_eq. apply Shape.member_Own in He.
          destruct (Hentry e He) as (e' & -> & ?). by exists e'.
        + rewrite lookup_insert_ne by done. by exists e. }
    destruct (member (byId s) k) as [[existing|st0 d0 r0]| |] eqn:E; cbv beta iota zeta.
    + apply Hinsert. intros e [= <-]. by eexists.
    + apply Hinsert. by intros e [=].
    + apply Hinsert. by intros e [=].
    + apply Shape.member_Missing in E as [E _].
      split; cbn; [by apply prefix_app_r|]. split.
      * intros k' Hk'. rewrite lookup_insert_is_Some. destruct (decide (k = k')); auto.
      * intros k' e He. exists e. rewrite lookup_insert_ne by congruence. done.
Qed.

Lemma run_snoc s queue step :
  run s (queue ++ [step]) = eventReducer step.1 (run s queue) step.2.
Proof. unfold run. by rewrite foldl_app. Qed.

(** X1. Along any queue of register-call and register-result actions the
    store only grows: the ids already in [order] stay where they are, new
    ids are appended after them, no slot disappears, and every event
    already stored keeps its id, tool name, timestamp and payload
    whatever results arrive. *)
Theorem run_keeps_registered (s : EventState) (queue : list (Z * EventAction)) :
  Forall (λ step, isReset step.2 = false) queue →
  order s `prefix_of` order (run s queue) ∧
  (∀ k, is_Some (byId s !! k) → is_Some (byId (run s queue) !! k)) ∧
  ∀ k e, byId s !! k = Some (Registered e) →
    ∃ e', byId (run s queue) !! k = Some (Registered e') ∧ id e' = id e ∧
          toolName e' = toolName e ∧ timestamp e' = timestamp e ∧
          payload e' = payload e.
Proof.
  intros Hq. change (extends s (run s queue)).
  induction queue as [|step queue IH] using rev_ind; [apply extends_refl|].
  apply Forall_app in Hq as [Hq Hstep]. rewrite Forall_singleton in Hstep.
  rewrite run_snoc. eapply extends_trans; [by apply IH|by apply step_extends].
Qed.

Lemma run_keeps_registered_witness :
  let queue := [ (40%Z, RegisterResult "t1" success (Int 9) (Some (ResultText "done")));
                 (50%Z, RegisterCall (sampleEvent "t1" error));
                 (60%Z, RegisterCall (sampleEvent "t3" running)) ] in
  order sampleState `prefix_of` order (run sampleState queue) ∧
  (∀ k, is_Some (byId sampleState !! k) → is_Some (byId (run sampleState queue) !! k)) ∧
  ∀ k e, byId sampleState !! k = Some (Registered e) →
    ∃ e', byId (run sampleState queue) !! k = Some (Registered e') ∧ id e' = id e ∧
          toolName e' = toolName e ∧ timestamp e' = timestamp e ∧
          payload e' = payload e.
Proof.
  apply (run_keeps_registered sampleState).
  repeat constructor.
Defined.

Lemma keyed_step now s a : keyed s → keyed (eventReducer now s a).
Proof.
  intros Hs. destruct a as [event|k st d r|]; unfold eventReducer.
  - destruct (member (byId s) (id event)) eqn:E; [done|done|].
    intros k e. cbn. rewrite lookup_insert. case_decide; [|by apply Hs].
    by intros [= <-].
  - destruct (member (byId s) k) as [[existing|st0 d0 r0]| |] eqn:E;
      intros k' e; cbn; rewrite lookup_insert; case_decide; try (by apply Hs);
      try done.
    + intros [= <-]. cbn. subst. apply Shape.member_Own in E. by apply Hs.
    + by intros [= <-].
  - intros k e. cbn. by rewrite lookup_empty.
Qed.

Lemma reachable_keyed s : reachable s → keyed s.
Proof.
  induction 1 as [|now s a _ IH]; [|by apply keyed_step].
  intros k e. cbn. by rewrite lookup_empty.
Qed.

(** The events [order] lists, read off the slots. *)
Lemma events_registered (s : EventState) (l : list string) :
  keyed s → (∀ k, k ∈ l → ∃ e, byId s !! k = Some (Registered e)) →
  ∃ evs,
    omap (λ k, match member (byId s) k with Missing => None | found => Some found end) l
      = (λ e, Own (Registered e)) <$> evs ∧
    id <$> evs = l ∧
    ∀ e, e ∈ evs ↔ ∃ k, k ∈ l ∧ byId s !! k = Some (Registered e).
Proof.
  intros Hkeyed. induction l as [|k l IH]; intros Hl.
  { exists []. repeat split; try done.
    - by intros ?%elem_of_nil.
    - by intros (k & ?%elem_of_nil & _). }
  destruct (Hl k) as [e He]; [by left|].
  destruct IH as (evs & Hev & Hids & Hin); [intros k' Hk'; apply Hl; by right|].
  exists (e :: evs). cbn.
  rewrite (proj2 (Shape.member_Own _ _ _) He), Hev, Hids, (Hkeyed k e He).
  repeat split; try done.
  - intros [->|Hx]%elem_of_cons; [exists k; split; [by left|done]|].
    apply Hin in Hx as (k' & Hk' & Hx). exists k'. split; [by right|done].
  - intros (k' & [->|Hk']%elem_of_cons & Hx).
    + rewrite He in Hx. injection Hx as ->. by left.
    + right. apply Hin. by exists k'.
Qed.

Lemma reachable_events (s : EventState) :
  reachable s →
  ∃ evs : list ToolEvent,
    events s = (λ e, Own (Registered e)) <$> evs ∧
    id <$> evs = order s ∧
    (∀ e, e ∈ evs ↔ ∃ k, byId s !! k = Some (Registered e)).
Proof.
  intros Hs. pose proof (Reducer.reachable_consistent s Hs) as (_ & Hdom & _).
  destruct (events_registered s (order s) (reachable_keyed s Hs))
    as (evs & Hev & Hids & Hin).
  { intros k. apply Hdom. }
  exists evs. split; [done|]. split; [done|]. intros e. rewrite Hin. split.
  - intros (k & _ & He). by exists k.
  - intros (k & He). exists k. split; [|done]. apply Hdom. by exists e.
Qed.

(** X2. In every reachable state the event list shown to the user is the
    events of the store read in [order]: each listed element is the own
    slot of its id and holds an event, the ids of the listed events are
    exactly [order], so the [filter(Boolean)] drops nothing, and every
    event of the store is listed, under the id it is keyed by.  (A slot
    that holds no event sits under a name of [Object.prototype] and is
    not listed.) *)
Theorem events_follow_order (s : EventState) :
  reachable s →
  ∃ evs : list ToolEvent,
    events s = (λ e, Own (Registered e)) <$> evs ∧
    id <$> evs = order s ∧
    length (events s) = length (order s) ∧
    (∀ k e, byId s !! k = Some (Registered e) → id e = k) ∧
    (∀ e, e ∈ evs ↔ ∃ k, byId s !! k = Some (Registered e)).
Proof.
  intros Hs. destruct (reachable_events s Hs) as (evs & Hev & Hids & Hin).
  exists evs. split; [done|]. split; [done|].
  split; [by rewrite Hev, length_fmap, <- Hids, length_fmap|].
  split; [by apply reachable_keyed|done].
Qed.

Lemma events_follow_order_witness :
  ∃ evs : list ToolEvent,
    events sampleState = (λ e, Own (Registered e)) <$> evs ∧
    id <$> evs = ["t1"; "t2"] ∧
    length (events sampleState) = 2 ∧
    (∀ k e, byId sampleState !! k = Some (Registered e) → id e = k) ∧
    (∀ e, e ∈ evs ↔ ∃ k, byId sampleState !! k = Some (Registered e)).
Proof. exact (events_follow_order sampleState Reducer.sampleState_reachable). Defined.

(** X3. Two register-result actions for one id collapse into one: the
    status and duration of the second, and the result of the second when
    it has one, of the first otherwise.  No terminal status locks an
    event, and a synthesized event keeps the timestamp of the first. *)
Theorem register_result_twice (now1 now2 : Z) (s : EventState) (k : string)
    (st1 st2 : ToolEventStatus) (d1 d2 : number) (r1 r2 : option ToolResult) :
  eventReducer now2 (eventReducer now1 s (RegisterResult k st1 d1 r1))
    (RegisterResult k st2 d2 r2)
  = eventReducer now1 s
      (RegisterResult k st2 d2 (match r2 with Some r => Some r | None => r1 end)).
Proof.
  cbn. destruct (member (byId s) k) as [[existing|st0 d0 r0]| |] eqn:E; cbn;
    rewrite (proj2 (Shape.member_Own _ _ _) (lookup_insert_eq _ _ _)); cbn;
    rewrite insert_insert_eq; by destruct r1, r2.
Qed.

(** X4. A register-call that arrives after a register-result for the same
    id changes nothing: the event stays the one the result registered, so
    an id whose result is seen first never gets the payload of its call. *)
Theorem register_call_after_result (now1 now2 : Z) (s : EventState)
    (event : ToolEvent) (st : ToolEventStatus) (d : number) (r : option ToolResult) :
  eventReducer now2 (eventReducer now1 s (RegisterResult (id event) st d r))
    (RegisterCall event)
  = eventReducer now1 s (RegisterResult (id event) st d r).
Proof.
  apply Reducer.register_call_known. cbn.
  destruct (member (byId s) (id event)); cbn; rewrite lookup_insert_eq; by eexists.
Qed.

End ReducerLaws.
Module ClassifierLaws.

Import AgentEvents Spec Laws.

Lemma parseToolResult_other (ABORTED : string) (raw : JsValue) :
  match raw with
  | JBool _ | JNumber _ | JArray _ => parseToolResult ABORTED raw = Some (ResultUnknown raw)
  | _ => True
  end.
Proof.
  destruct raw; try done; unfold parseToolResult; by rewrite Shape.asRecord_spec.
Qed.

Lemma imageObject_classified (ABORTED : string) (raw : JsValue) (data : string) :
  imageObject raw data → parseToolResult ABORTED raw = Some (ResultImage data).
Proof.
  intros (fields & -> & Htype & Hdata).
  by rewrite Classifier.parseToolResult_object, Htype, decide_True, Hdata.
Qed.

Lemma textObject_classified (ABORTED : string) (raw : JsValue) (t : string) :
  textObject raw t →
  parseToolResult ABORTED raw =
    Some (if decide (t = ABORTED) then ResultAborted t else ResultText t).
Proof.
  intros (fields & -> & Htype & Htext).
  by apply Classifier.parseToolResult_text_object.
Qed.

Lemma shapes_of_object (fields : gmap string JsValue) :
  (∀ data, imageObject (JObject fields) data ↔
           fields !! "type" = Some (JString "image") ∧
           fields !! "data" = Some (JString data)) ∧
  (∀ t, textObject (JObject fields) t ↔
        fields !! "type" = Some (JString "text") ∧
        fields !! "text" = Some (JString t)).
Proof.
  split; intros x; (split; [intros (f & [= <-] & H); exact H | intros H; by exists fields]).
Qed.

(** What each classification says about the raw value it came from. *)
Lemma parseToolResult_inv (ABORTED : string) (raw : JsValue) (res : ToolResult) :
  parseToolResult ABORTED raw = Some res →
  match res with
  | ResultAborted t => t = ABORTED ∧ (raw = JString ABORTED ∨ textObject raw ABORTED)
  | ResultText t => t ≠ ABORTED ∧ (raw = JString t ∨ textObject raw t)
  | ResultImage data => imageObject raw data
  | ResultUnknown r =>
      r = raw ∧ (∀ s, raw ≠ JString s) ∧
      (∀ data, ¬ imageObject raw data) ∧ (∀ t, ¬ textObject raw t)
  end.
Proof.
  pose proof (parseToolResult_other ABORTED raw) as Hother.
  destruct raw as [| |b|n|s|items|fields]; try done;
    try (rewrite Hother; intros [= <-];
         repeat split; try done; intros x (f & Hf & _); discriminate).
  - rewrite Classifier.parseToolResult_string.
    case_decide as Hs; intros [= <-]; [subst|]; split; auto.
  - rewrite Classifier.parseToolResult_object.
    destruct (shapes_of_object fields) as [Himage Htext].
    intros [= <-].
    destruct (fields !! "type") as [[| | | |tag| |]|] eqn:Etype;
      try (repeat split; try done; intros x; rewrite ?Himage, ?Htext;
           intros [? _]; congruence).
    destruct (decide (tag = "image")) as [->|Hni].
    { destruct (fields !! "data") as [[| | | |data| |]|] eqn:Edata;
        try (repeat split; try done; intros x; rewrite ?Himage, ?Htext;
             intros [? ?]; congruence).
      by apply Himage. }
    destruct (decide (tag = "text")) as [->|Hnt].
    { destruct (fields !! "text") as [[| | | |t| |]|] eqn:Etext;
        try (repeat split; try done; intros x; rewrite ?Himage, ?Htext;
             intros [? ?]; congruence).
      case_decide as Ht; [subst|]; (split; [done|]); right; by apply Htext. }
    repeat split; try done; intros x; rewrite ?Himage, ?Htext;
      intros [? _]; congruence.
Qed.

(** X5. A result is classified [aborted] only when its whole text is the
    sentinel: the raw value is the sentinel string, or an object with
    discriminant ["text"] whose [text] is the sentinel; the text kept in
    the result is then the sentinel, and these are exactly the raw values
    whose derived status is [aborted]. *)
Theorem aborted_only_from_sentinel (ABORTED : string) (raw : JsValue) :
  (∀ t, parseToolResult ABORTED raw = Some (ResultAborted t) ↔
        t = ABORTED ∧ (raw = JString ABORTED ∨ textObject raw ABORTED)) ∧
  (deriveStatusFromResult (parseToolResult ABORTED raw) = aborted ↔
   raw = JString ABORTED ∨ textObject raw ABORTED).
Proof.
  assert (raw = JString ABORTED ∨ textObject raw ABORTED →
          parseToolResult ABORTED raw = Some (ResultAborted ABORTED)) as Hintro.
  { intros [->|Hobj].
    - by rewrite Classifier.parseToolResult_string, decide_True.
    - by rewrite (textObject_classified _ _ ABORTED), decide_True. }
  split.
  - intros t. split; [apply (parseToolResult_inv _ _ (ResultAborted t))|].
    intros [-> H]. by apply Hintro.
  - split; [|by intros ->%Hintro].
    destruct (parseToolResult ABORTED raw) as [[]|] eqn:E; try done.
    intros _. by apply (parseToolResult_inv _ _ _ E).
Qed.

(** X6. A result is classified [text] exactly when the raw value is a
    string, or an object with discriminant ["text"] and a string [text],
    other than the sentinel; the text is kept unchanged, so a [text]
    result never carries the sentinel. *)
Theorem text_classification (ABORTED : string) (raw : JsValue) (t : string) :
  parseToolResult ABORTED raw = Some (ResultText t) ↔
  t ≠ ABORTED ∧ (raw = JString t ∨ textObject raw t).
Proof.
  split; [apply (parseToolResult_inv _ _ (ResultText t))|].
  intros [Hne [->|Hobj]].
  - by rewrite Classifier.parseToolResult_string, decide_False.
  - by rewrite (textObject_classified _ _ t), decide_False.
Qed.

(** X7. A result is classified [image] exactly when the raw value is an
    object with discriminant ["image"] and a string under [data], which is
    kept unchanged; no [text] field, not even the sentinel, alters that,
    and the derived status is [success]. *)
Theorem image_classification (ABORTED : string) (raw : JsValue) (data : string) :
  (parseToolResult ABORTED raw = Some (ResultImage data) ↔ imageObject raw data) ∧
  (imageObject raw data →
   deriveStatusFromResult (parseToolResult ABORTED raw) = success).
Proof.
  split; [split|].
  - apply (parseToolResult_inv _ _ (ResultImage data)).
  - apply imageObject_classified.
  - intros H. by rewrite (imageObject_classified _ _ data).
Qed.

(** X8. Every raw value other than [undefined] and [null] that is neither
    a string, nor an image object, nor a text object is classified
    [unknown], and only such values are; the [unknown] result holds the
    raw value itself. *)
Theorem unknown_classification (ABORTED : string) (raw r : JsValue) :
  parseToolResult ABORTED raw = Some (ResultUnknown r) ↔
  r = raw ∧ raw ≠ JUndefined ∧ raw ≠ JNull ∧ (∀ s, raw ≠ JString s) ∧
  (∀ data, ¬ imageObject raw data) ∧ (∀ t, ¬ textObject raw t).
Proof.
  split.
  - intros H. destruct (parseToolResult_inv _ _ _ H) as (-> & Hs & Hi & Ht).
    repeat split; try done; intros ->; discriminate.
  - intros (-> & Hu & Hn & Hs & Hi & Ht).
    destruct (parseToolResult ABORTED raw) as [res|] eqn:E.
    + pose proof (parseToolResult_inv _ _ _ E) as Hinv.
      destruct res as [t|data|t|r]; cbn in Hinv.
      * destruct Hinv as [_ [->|H]]; [by destruct (Hs t) | by destruct (Ht t)].
      * by destruct (Hi data).
      * destruct Hinv as [_ [->|H]]; [by destruct (Hs ABORTED) | by destruct (Ht ABORTED)].
      * by destruct Hinv as [-> _].
    + apply Classifier.parseToolResult_None in E as [|]; congruence.
Qed.

End ClassifierLaws.

(** ** Laws of the payload normalizer and of the event labels *)

Module NormalizerLaws.

Import AgentEvents Spec Laws.

Lemma prop_of_record (args : JsValue) (key : string) :
  asString (prop (nullish (asRecord args) ∅) key) = suppliedString key args.
Proof.
  rewrite Shape.asRecord_spec. unfold suppliedString, nullish, prop.
  destruct args as [| | | | | |fields]; try reflexivity.
  cbn. by destruct (fields !! key) as [[]|].
Qed.

(** X25. [asRecord] accepts exactly the non-array objects and returns
    them as they are: [undefined], [null] (whose [typeof] is ["object"]),
    booleans, numbers, strings and arrays all give no record. *)
Theorem asRecord_accepts_objects_only (value : JsValue) :
  (∀ fields, asRecord value = Some fields ↔ value = JObject fields) ∧
  (asRecord value = None ↔ ∀ fields, value ≠ JObject fields) ∧
  asRecord JNull = None ∧
  (∀ items, asRecord (JArray items) = None).
Proof.
  rewrite Shape.asRecord_spec. repeat split.
  - destruct value; try done. by intros [= ->].
  - by intros ->.
  - intros Hnone fields ->. done.
  - intros Hno. destruct value as [| | | | | |fields]; try done. by destruct (Hno fields).
Qed.

(** X9. For tool-kind ["bash"] every arguments value yields a bash payload;
    its command is the string found under [command] when the arguments
    are a non-array object holding a string there, and the empty string in
    every other case (no object, an array, no [command], a [command] that
    is not a string). *)
Theorem bash_command (args : JsValue) :
  parseToolPayload "bash" args =
    PayloadBash match suppliedString "command" args with
                | Some command => command
                | None => ""
                end.
Proof.
  unfold parseToolPayload. rewrite decide_True by done.
  rewrite Shape.asRecord_spec. unfold suppliedString, nullish, prop.
  destruct args as [| | | | | |fields]; try reflexivity.
  cbn. by destruct (fields !! "command") as [[]|].
Qed.

Lemma payloadKind_normalized (name : string) (args : JsValue) :
  payloadKind (parseToolPayload name args) = Page.normalizeToolName name.
Proof.
  unfold parseToolPayload, Page.normalizeToolName.
  destruct (decide (name = "bash")) as [->|Hb]; [done|].
  by destruct (decide (name = "computer")).
Qed.

(** X10. The variant of the payload [parseToolPayload] builds and the tool
    name [normalizeToolName] gives the event always agree: [computer] and
    [bash] for those two labels, [unknown] for every other label,
    whatever the arguments. *)
Theorem payload_kind_matches_tool_name (name : string) (args : JsValue) :
  payloadKind (parseToolPayload name args) = Page.normalizeToolName name ∧
  (Page.normalizeToolName name = ToolUnknown ↔ name ≠ "computer" ∧ name ≠ "bash").
Proof.
  split; [apply payloadKind_normalized|].
  unfold Page.normalizeToolName.
  destruct (decide (name = "computer")) as [->|Hc]; [split; [done|by intros []]|].
  destruct (decide (name = "bash")) as [->|Hb]; [split; [done|by intros []]|].
  done.
Qed.

(** X11. In a computer payload the optional numbers [duration] and
    [scroll_amount] are present only as finite numbers taken from the
    arguments; [coordinate] is present exactly when the arguments hold a
    two-element array of numbers there, finite or not; [text] and
    [scroll_direction] are the strings found under those keys. *)
Theorem computer_optional_fields (args : JsValue) :
  ∃ p, parseToolPayload "computer" args = PayloadComputer p ∧
    text p = suppliedString "text" args ∧
    scroll_direction p = suppliedString "scroll_direction" args ∧
    (∀ d, duration p = Some d ↔
          PrimFloat.is_finite d = true ∧
          ∃ fields, args = JObject fields ∧ fields !! "duration" = Some (JNumber d)) ∧
    (∀ d, scroll_amount p = Some d ↔
          PrimFloat.is_finite d = true ∧
          ∃ fields, args = JObject fields ∧ fields !! "scroll_amount" = Some (JNumber d)) ∧
    (∀ x y, coordinate p = Some (x, y) ↔
            ∃ fields, args = JObject fields ∧
                      fields !! "coordinate" = Some (JArray [JNumber x; JNumber y])).
Proof.
  unfold parseToolPayload. rewrite decide_False, decide_True by done.
  eexists. split; [reflexivity|]. cbn [text scroll_direction duration scroll_amount coordinate].
  rewrite !prop_of_record. split; [done|]. split; [done|].
  rewrite Shape.asRecord_spec. unfold nullish, prop.
  assert (∀ key d,
    asNumber (default JUndefined
      (default ∅ match args with JObject fields => Some fields | _ => None end !! key))
      = Some d ↔
    PrimFloat.is_finite d = true ∧
    ∃ fields, args = JObject fields ∧ fields !! key = Some (JNumber d)) as Hnumber.
  { intros key d. destruct args as [| | | | | |fields]; cbn;
      try (rewrite lookup_empty; cbn; split; [done|intros [_ (f & ? & _)]; done]).
    destruct (fields !! key) as [[| | |n| | |]|] eqn:E; cbn;
      try (split; [done|intros [_ (f & [= <-] & Hf)]; congruence]).
    destruct (PrimFloat.is_finite n) eqn:Efin; split.
    - intros [= <-]. split; [done|]. by exists fields.
    - intros [_ (f & [= <-] & Hf)]. congruence.
    - done.
    - intros [Hd (f & [= <-] & Hf)]. congruence. }
  split; [apply Hnumber|]. split; [apply Hnumber|].
  intros x y. destruct args as [| | | | | |fields]; cbn;
    try (rewrite lookup_empty; cbn; split; [done|intros (f & ? & _); done]).
  destruct (fields !! "coordinate") as [v|] eqn:E; cbn.
  - split.
    + intros H. exists fields. split; [done|]. f_equal.
      destruct v as [| | | | |[|[| | |a| | |] [|[| | |b| | |] [|]]]|]; try done.
      cbn in H. by injection H as -> ->.
    + intros (f & [= <-] & Hf). rewrite E in Hf. by injection Hf as ->.
  - split; [done|]. intros (f & [= <-] & Hf). congruence.
Qed.

Lemma labelKey_label (e : ToolEvent) :
  getEventType e = match labelKey e with
                   | (ToolComputer, Some a) => "computer:" +:+ a
                   | (ToolBash, _) => "bash:command"
                   | _ => "unknown"
                   end.
Proof. unfold getEventType, labelKey. by destruct (payload e). Qed.

Lemma label_determines_key (e e' : ToolEvent) :
  getEventType e = getEventType e' ↔ labelKey e = labelKey e'.
Proof.
  split; [|intros H; by rewrite !labelKey_label, H].
  unfold getEventType, labelKey.
  destruct (payload e), (payload e'); cbn; try done.
  intros [= H]. change (action p = action p0) in H. by rewrite H.
Qed.

(** X12. Two events get the same label exactly when their payloads are of
    the same kind and, for computer payloads, have the same action: the
    label of a computer event is ["computer:"] followed by its action,
    and can be neither ["bash:command"] nor ["unknown"]. *)
Theorem label_tells_kind_and_action (e e' : ToolEvent) :
  (getEventType e = getEventType e' ↔ labelKey e = labelKey e') ∧
  (getEventType e = "bash:command" ↔ payloadKind (payload e) = ToolBash) ∧
  (getEventType e = "unknown" ↔ payloadKind (payload e) = ToolUnknown) ∧
  (∀ p, payload e = PayloadComputer p → getEventType e = "computer:" +:+ action p).
Proof.
  split; [apply label_determines_key|].
  unfold getEventType. destruct (payload e); cbn; repeat split; try done.
  intros p0 Hp. by injection Hp as <-.
Qed.

End NormalizerLaws.

(** ** Laws of the derived views *)

Module ViewLaws.

Import AgentEvents Spec Laws Views Samples.

Lemma countInto_lookup (evs : list ToolEvent) (acc : gmap string nat) (type : string) :
  countInto acc evs !! type =
    if decide (labelled type evs = 0) then acc !! type
    else Some (default 0 (acc !! type) + labelled type evs).
Proof.
  revert acc. unfold labelled.
  induction evs as [|e evs IH]; intros acc; [done|].
  change (countInto acc (e :: evs)) with
    (countInto (<[getEventType e := default 0 (acc !! getEventType e) + 1]> acc) evs).
  rewrite IH. destruct (decide (getEventType e = type)) as [<-|Hne].
  - rewrite filter_cons_True by done. cbn [length].
    rewrite lookup_insert_eq. cbn.
    rewrite (decide_False (P := S _ = 0)) by done.
    case_decide as Hn; [rewrite Hn|]; f_equal; lia.
  - rewrite filter_cons_False by done. by rewrite lookup_insert_ne.
Qed.

Lemma total_insert (acc : gmap string nat) (k : string) :
  total (<[k := default 0 (acc !! k) + 1]> acc) = S (total acc).
Proof.
  unfold total.
  assert (∀ (m : gmap string nat) j1 j2 z1 z2 y,
            j1 ≠ j2 → m !! j1 = Some z1 → m !! j2 = Some z2 →
            z1 + (z2 + y) = z2 + (z1 + y)) as Hcomm by (intros; lia).
  destruct (acc !! k) as [n|] eqn:E; cbn.
  - rewrite <- insert_delete_eq.
    rewrite map_fold_insert_L; [|by eauto|by rewrite lookup_delete_eq].
    rewrite (map_fold_delete_L _ _ k n acc); [lia|by eauto|done].
  - rewrite map_fold_insert_L; [done|by eauto|done].
Qed.

Lemma countInto_total (evs : list ToolEvent) (acc : gmap string nat) :
  total (countInto acc evs) = total acc + length evs.
Proof.
  revert acc. induction evs as [|e evs IH]; intros acc; cbn; [lia|].
  change (foldl _ _ evs) with
    (countInto (<[getEventType e := default 0 (acc !! getEventType e) + 1]> acc) evs).
  rewrite IH, total_insert. lia.
Qed.

(** X13. The summary counts every event under its label and nothing else:
    the entry of a label is the number of listed events with that label,
    a label no event has gets no entry, and the counts add up to the
    number of events. *)
Theorem eventCounts_counts (evs : list ToolEvent) (type : string) :
  eventCounts evs !! type =
    (if decide (labelled type evs = 0) then None else Some (labelled type evs)) ∧
  (eventCounts evs !! type = None ↔ ∀ e, e ∈ evs → getEventType e ≠ type) ∧
  total (eventCounts evs) = length evs.
Proof.
  assert (eventCounts evs !! type =
          if decide (labelled type evs = 0) then None else Some (labelled type evs))
    as Hcount.
  { unfold eventCounts. rewrite countInto_lookup, lookup_empty. by case_decide. }
  split; [done|]. split.
  - rewrite Hcount. clear Hcount. unfold labelled. case_decide as Hn.
    + split; [intros _|done]. apply length_zero_iff_nil in Hn.
      intros e He Hty. assert (e ∈ filter (λ e, getEventType e = type) evs) as Hin
        by (by apply list_elem_of_filter).
      rewrite Hn in Hin. by apply elem_of_nil in Hin.
    + split; [done|]. intros Hall. destruct Hn.
      destruct (filter _ evs) as [|e l] eqn:E; [done|].
      assert (e ∈ filter (λ e, getEventType e = type) evs) as Hin
        by (rewrite E; by left).
      apply list_elem_of_filter in Hin as [Hty He]. by destruct (Hall e He).
  - unfold eventCounts. rewrite countInto_total. unfold total.
    by rewrite map_fold_empty.
Qed.

Lemma existsb_isRunning (evs : list ToolEvent) :
  existsb isRunning ((λ e, Own (Registered e)) <$> evs) = true ↔
  ∃ e, e ∈ evs ∧ status e = running.
Proof.
  rewrite existsb_exists. split.
  - intros (x & Hx & Hr). apply list_elem_of_In, list_elem_of_fmap in Hx as (e & -> & He).
    exists e. split; [done|]. cbn in Hr. by destruct (status e).
  - intros (e & He & Hr). exists (Own (Registered e)). split.
    + apply list_elem_of_In, list_elem_of_fmap. by exists e.
    + cbn. by rewrite Hr.
Qed.

(** X14. In every reachable state the header shows ["Acting"] exactly
    when some event of the store is [running]; when none is, it shows
    ["Thinking"] while the chat is submitted or streaming and ["Idle"]
    once it is ready or has failed. *)
Theorem agentStatus_reflects_store (s : EventState) (chat : ChatStatus) :
  reachable s →
  (agentStatus (events s) chat = "Acting" ↔ eventRunning s) ∧
  (¬ eventRunning s →
   agentStatus (events s) chat =
     match chat with
     | ChatSubmitted | ChatStreaming => "Thinking"
     | ChatReady | ChatError => "Idle"
     end).
Proof.
  intros Hs. destruct (ReducerLaws.reachable_events s Hs) as (evs & Hev & _ & Hin).
  assert (existsb isRunning (events s) = true ↔ eventRunning s) as Hrun.
  { rewrite Hev, existsb_isRunning. unfold eventRunning. split.
    - intros (e & [k Hk]%Hin & Hr). by exists k, e.
    - intros (k & e & Hk & Hr). exists e. split; [|done]. apply Hin. by exists k. }
  unfold agentStatus. split.
  - rewrite <- Hrun. destruct (existsb isRunning (events s)); [done|].
    by destruct chat.
  - intros Hnone. destruct (existsb isRunning (events s)); [|done].
    destruct Hnone. by apply Hrun.
Qed.

Lemma agentStatus_reflects_store_witness :
  agentStatus (events runningState) ChatReady = "Acting" ∧
  (¬ eventRunning sampleState →
   agentStatus (events sampleState) ChatStreaming = "Thinking").
Proof.
  split.
  - apply (proj1 (agentStatus_reflects_store runningState ChatReady
                    (reachable_step 40 _ _ Reducer.sampleState_reachable))).
    exists "t3", (sampleEvent "t3" running). by split.
  - exact (proj2 (agentStatus_reflects_store sampleState ChatStreaming
                    Reducer.sampleState_reachable)).
Defined.

End ViewLaws.

(** ** Laws of the ingestion scanner *)

Module IngestionLaws.

Import AgentEvents Page Spec Laws Samples.

Section WithEnvironment.

Variable ABORTED : string.
Variable Date_now : nat → Z.

Abbreviation scanPart := (Page.scanPart ABORTED Date_now).
Abbreviation scanMessage := (Page.scanMessage ABORTED Date_now).
Abbreviation scanMessages := (Page.scanMessages ABORTED Date_now).

Lemma deriveStatus_not_error r : deriveStatusFromResult r ≠ error.
Proof. by destruct r as [[]|]. Qed.

Lemma slotCoherent_iff (P Q : Prop) k entry :
  (P ↔ Q) → slotCoherent P k entry → slotCoherent Q k entry.
Proof.
  intros HPQ (Herr & Hpos & Hnan & Hseen & Hunseen & Hshape).
  split; [done|]. split; [done|]. split; [done|].
  split; [intros HQ; by apply Hseen, HPQ|].
  split; [intros HQ; apply Hunseen; by rewrite HPQ|].
  destruct entry; [done|]. by apply HPQ.
Qed.

Lemma coherent_empty (n : nat) :
  coherent {| eventState := initialEventState; seenCalls := ∅; seenResults := ∅;
              callStart := ∅; reads := n |}.
Proof.
  split; [apply Reducer.consistent_initial|]. cbn.
  split; [set_solver|]. split; [set_solver|].
  split; [|split]; intros k; rewrite ?lookup_empty.
  - split; [by intros []|set_solver].
  - split; [by intros []|set_solver].
  - done.
Qed.

Lemma assign_is_Some (object : gmap string Z) (key : string) (value : Z) (k : string) :
  is_Some (assign object key value !! k) ↔
  is_Some (object !! k) ∨ (k = key ∧ k ≠ "__proto__").
Proof.
  unfold assign. case_decide as Hkey.
  - subst key. split; [by left|]. by intros [?|[-> ?]].
  - rewrite lookup_insert_is_Some. split.
    + intros [<-|[_ ?]]; [by right|by left].
    + intros [?|[-> _]]; [|by left].
      destruct (decide (key = k)); [by left|by right].
Qed.

Lemma coherent_scanCall sc inv :
  toolCallId inv ≠ "" → coherent sc → coherent (scanCall Date_now sc inv).
Proof.
  intros Hid (Hcons & Hec & Her & Hdom & Hstart & Hev).
  unfold scanCall. destruct (Page.state inv); [|done].
  case_decide as Hseen; [done|].
  assert (∀ k, is_Some (assign (callStart sc) (toolCallId inv) (Date_now (reads sc)) !! k)
               ↔ k ∈ ({[toolCallId inv]} ∪ seenCalls sc : gset string) ∧ k ≠ "__proto__")
    as Hstart'.
  { intros k. rewrite assign_is_Some, Hstart, elem_of_union, elem_of_singleton.
    tauto. }
  unfold dispatchEvent, coherent. cbn.
  destruct (member (byId (eventState sc)) (toolCallId inv)) as [existing| |] eqn:E.
  - apply Shape.member_Own in E.
    split; [done|]. split; [set_solver|]. split; [done|].
    split; [|by split]. intros k. rewrite Hdom, elem_of_union, elem_of_singleton.
    split; [tauto|]. intros [?|[[->|?] ?]]; [tauto| |tauto].
    apply Hdom. by rewrite E.
  - apply Shape.member_Inherited in E as [E Hproto].
    split; [done|]. split; [set_solver|]. split; [done|].
    split; [|by split]. intros k. rewrite Hdom, elem_of_union, elem_of_singleton.
    split; [tauto|]. intros [?|[[->|?] ?]]; tauto.
  - pose proof E as [E' Hplain]%Shape.member_Missing.
    assert (toolCallId inv ∉ seenResults sc) as Hnr.
    { intros Hin. assert (is_Some (byId (eventState sc) !! toolCallId inv)) as [? ?]
        by (apply Hdom; by left). congruence. }
    split; [by apply Reducer.consistent_append|]. cbn.
    split; [set_solver|]. split; [done|]. split; [|split; [done|]].
    + intros k. rewrite lookup_insert_is_Some, Hdom, !elem_of_union, elem_of_singleton.
      destruct (decide (toolCallId inv = k)) as [<-|]; [tauto|].
      split; [intros [?|[_ ?]]; [done|tauto]|].
      intros [?|[[?|?] ?]]; [tauto|congruence|tauto].
    + intros k entry. destruct (decide (toolCallId inv = k)) as [<-|Hk];
        [|rewrite lookup_insert_ne by done; apply Hev].
      rewrite lookup_insert_eq. intros [= <-].
      split; [done|]. split; [done|]. split; [done|]. split; [done|].
      split; [intros _; by eexists|]. split; [done|].
      apply NormalizerLaws.payloadKind_normalized.
Qed.

(** The one dispatch of [scanResult] on a result not seen before. *)
Lemma scanResult_dispatch sc inv :
  Page.state inv = StateResult → toolCallId inv ∉ seenResults sc →
  ∃ (d : number) (r n : nat),
    (∀ z, d = Int z → (0 ≤ z)%Z) ∧
    (d = NaN → toolCallId inv ∈ prototypeMembers) ∧
    scanResult ABORTED Date_now sc inv =
      {| eventState :=
           eventReducer (Date_now r) (eventState sc)
             (RegisterResult (toolCallId inv)
                (deriveStatusFromResult (parseToolResult ABORTED (Page.result inv)))
                d (parseToolResult ABORTED (Page.result inv)));
         seenCalls := seenCalls sc;
         seenResults := {[toolCallId inv]} ∪ seenResults sc;
         callStart := callStart sc;
         reads := n |}.
Proof.
  intros Hstate Hseen. unfold scanResult. rewrite Hstate, decide_False by done.
  destruct (member (callStart sc) (toolCallId inv)) as [t| |] eqn:E;
    unfold dispatchEvent; cbn; do 3 eexists;
    (split; [|split; [|reflexivity]]).
  - intros z [= <-]. lia.
  - done.
  - done.
  - intros _. by apply Shape.member_Inherited in E as [_ ?].
  - intros z [= <-]. lia.
  - done.
Qed.

Lemma coherent_scanResult sc inv :
  toolCallId inv ≠ "" → coherent sc → coherent (scanResult ABORTED Date_now sc inv).
Proof.
  intros Hid Hsc.
  destruct (Page.state inv) eqn:Hstate; [unfold scanResult; by rewrite Hstate|].
  destruct (decide (toolCallId inv ∈ seenResults sc)) as [Hseen|Hseen];
    [unfold scanResult; by rewrite Hstate, decide_True|].
  destruct (scanResult_dispatch sc inv Hstate Hseen) as (d & r & n & Hd & Hnan & ->).
  destruct Hsc as (Hcons & Hec & Her & Hdom & Hstart & Hev).
  set (parsed := parseToolResult ABORTED (Page.result inv)).
  assert (∀ k, k ≠ toolCallId inv →
               (k ∈ seenResults sc ↔ k ∈ ({[toolCallId inv]} ∪ seenResults sc : gset string)))
    as Hother by set_solver.
  assert (toolCallId inv ∈ ({[toolCallId inv]} ∪ seenResults sc : gset string))
    as Hnow by set_solver.
  split; [by apply Reducer.consistent_step|].
  cbn [eventState seenCalls seenResults callStart].
  split; [done|]. split; [set_solver|]. split; [|split; [done|]].
  - intros k. destruct (decide (k = toolCallId inv)) as [->|Hk].
    + split; [by left|]. intros _.
      destruct (Reducer.register_result_slot (Date_now r) (eventState sc)
                  (toolCallId inv) (deriveStatusFromResult parsed) d parsed)
        as [entry [-> _]]. done.
    + rewrite Reducer.register_result_other by done.
      rewrite Hdom, elem_of_union, elem_of_singleton. tauto.
  - intros k entry. destruct (decide (k = toolCallId inv)) as [->|Hk];
      [|rewrite Reducer.register_result_other by done; intros He;
        eapply slotCoherent_iff; [by apply Hother|by apply Hev]].
    cbn. destruct (member (byId (eventState sc)) (toolCallId inv))
      as [[e|st0 d0 r0]| |] eqn:E; cbn; rewrite lookup_insert_eq; intros [= <-].
    + apply Shape.member_Own in E.
      destruct (Hev _ _ E) as (_ & _ & _ & _ & Hunseen & Hkey & Hkind).
      destruct (Hunseen Hseen) as (e' & [= <-] & _ & Hres & _).
      split; [apply deriveStatus_not_error|]. cbn.
      split; [intros z [= ->]; by apply Hd|].
      split; [intros [= ->]; by apply Hnan|].
      split; [intros _; rewrite Hres; split; [by destruct parsed|done]|].
      split; [done|]. done.
    + apply Shape.member_Own in E.
      destruct (Hev _ _ E) as (_ & _ & _ & _ & _ & Hshape). cbn in Hshape. done.
    + apply Shape.member_Inherited in E as [_ Hproto].
      split; [apply deriveStatus_not_error|]. cbn.
      split; [intros z [= ->]; by apply Hd|].
      split; [done|]. split; [done|]. split; [done|]. done.
    + split; [apply deriveStatus_not_error|]. cbn.
      split; [intros z [= ->]; by apply Hd|].
      split; [intros [= ->]; by apply Hnan|].
      split; [done|]. split; [done|]. done.
Qed.

Lemma coherent_scanPart sc part : coherent sc → coherent (scanPart sc part).
Proof.
  intros Hsc. destruct part as [|inv|]; cbn; try done.
  case_decide; [done|]. by apply coherent_scanResult, coherent_scanCall.
Qed.

Lemma coherent_scanMessages hasHydrated ms sc :
  coherent sc → coherent (scanMessages hasHydrated ms sc).
Proof.
  unfold Page.scanMessages. destruct hasHydrated; [|done].
  revert sc. induction ms as [|m ms IH]; intros sc Hsc; cbn; [done|].
  apply IH. unfold Page.scanMessage. destruct (parts m) as [ps|]; [|done].
  clear IH. revert sc Hsc. induction ps as [|part ps IH]; intros sc Hsc; cbn; [done|].
  by apply IH, coherent_scanPart.
Qed.

Lemma tracked_coherent sc : tracked ABORTED Date_now sc → coherent sc.
Proof.
  induction 1 as [|h ms sc _ IH|h sc _ IH].
  - apply coherent_empty.
  - by apply coherent_scanMessages.
  - unfold resetTracking. destruct h; [apply coherent_empty|done].
Qed.

(** The ids of [order] are the seen ids that are no name of
    [Object.prototype]. *)
Lemma coherent_order sc k :
  coherent sc →
  k ∈ order (eventState sc) ↔ k ∈ seenCalls sc ∪ seenResults sc ∧ k ∉ prototypeMembers.
Proof.
  intros ((_ & Hord & Hplain & Hres) & _ & _ & Hdom & _).
  rewrite elem_of_union. split.
  - intros Hk. split; [|by apply Hplain].
    apply Hord in Hk as [e He].
    assert (is_Some (byId (eventState sc) !! k)) as Hsome by by rewrite He.
    apply Hdom in Hsome. tauto.
  - intros [Hseen Hk].
    assert (is_Some (byId (eventState sc) !! k)) as [[e|st d r] He] by (apply Hdom; tauto).
    + apply Hord. by exists e.
    + destruct Hk. by eapply Hres.
Qed.

(** X15. Whatever passes and resets have run, the store holds exactly the
    ids the scanner has seen, as far as a plain object can: [order] has
    no repeated id; an id is in [order] exactly when a call or a result
    occurrence of it was seen and it is no name of [Object.prototype];
    [byId] has a slot for an id exactly when a result of it was seen, or
    a call of it was seen and it is no such name; the empty id is never
    registered; and a start time is kept exactly for the ids whose call
    was seen, [__proto__] excepted, which cannot be assigned a number. *)
Theorem store_holds_seen_ids (sc : Scanner) :
  tracked ABORTED Date_now sc →
  NoDup (order (eventState sc)) ∧
  (∀ k, k ∈ order (eventState sc) ↔
        k ∈ seenCalls sc ∪ seenResults sc ∧ k ∉ prototypeMembers) ∧
  (∀ k, is_Some (byId (eventState sc) !! k) ↔
        k ∈ seenResults sc ∨ (k ∈ seenCalls sc ∧ k ∉ prototypeMembers)) ∧
  ("" ∉ order (eventState sc)) ∧
  (∀ k, is_Some (callStart sc !! k) ↔ k ∈ seenCalls sc ∧ k ≠ "__proto__").
Proof.
  intros Hsc%tracked_coherent.
  pose proof Hsc as ((Hnd & _) & Hec & Her & Hdom & Hstart & _).
  split; [done|]. split; [intros k; by apply coherent_order|].
  split; [done|]. split; [|done].
  rewrite coherent_order by done. set_solver.
Qed.

(** X16. Whatever passes and resets have run, no slot of the store has
    status [error]; a slot is [running] exactly while no result occurrence
    of its id was seen; once one was seen its status is the one derived
    from its stored result, so it is [aborted] exactly when that result is
    of type [aborted]. *)
Theorem status_follows_result (sc : Scanner) (k : string) (e : Stored) :
  tracked ABORTED Date_now sc →
  byId (eventState sc) !! k = Some e →
  statusOf e ≠ error ∧
  (statusOf e = running ↔ k ∉ seenResults sc) ∧
  (k ∈ seenResults sc → statusOf e = deriveStatusFromResult (resultOf e)) ∧
  (statusOf e = aborted ↔ ∃ t, resultOf e = Some (ResultAborted t)).
Proof.
  intros (_ & _ & _ & _ & _ & Hev)%tracked_coherent He.
  destruct (Hev k e He) as (Herr & _ & _ & Hseen & Hunseen & _).
  split; [done|].
  destruct (decide (k ∈ seenResults sc)) as [Hin|Hout].
  - destruct (Hseen Hin) as [Hst _]. split; [|split; [done|]].
    + split; [|done]. rewrite Hst. by destruct (resultOf e) as [[]|].
    + rewrite Hst. destruct (resultOf e) as [[]|]; cbn;
        (split; [try done; by eexists|try done; by intros [? [=]]]).
  - destruct (Hunseen Hout) as (e' & -> & Hst & Hres & _). cbn.
    split; [done|]. split; [done|].
    rewrite Hst, Hres. split; [done|by intros [? [=]]].
Qed.

(** X17. Whatever passes and resets have run, a slot has no duration
    exactly while it is [running]; a duration that is a number is never
    negative, even if the clock went backwards between call and result;
    and the duration is [NaN] only under a name of [Object.prototype],
    where the start time read back was the inherited member, so under
    every other id the duration is a number once the result was seen. *)
Theorem duration_recorded_with_result (sc : Scanner) (k : string) (e : Stored) :
  tracked ABORTED Date_now sc →
  byId (eventState sc) !! k = Some e →
  (durationOf e = None ↔ statusOf e = running) ∧
  (∀ d, durationOf e = Some (Int d) → (0 ≤ d)%Z) ∧
  (durationOf e = Some NaN → k ∈ prototypeMembers) ∧
  (k ∉ prototypeMembers → k ∈ seenResults sc →
   ∃ d, durationOf e = Some (Int d) ∧ (0 ≤ d)%Z).
Proof.
  intros (_ & _ & _ & _ & _ & Hev)%tracked_coherent He.
  destruct (Hev k e He) as (_ & Hpos & Hnan & Hseen & Hunseen & _).
  split; [|split; [done|split; [done|]]].
  - destruct (decide (k ∈ seenResults sc)) as [Hin|Hout].
    + destruct (Hseen Hin) as [Hst [d Hd]]. rewrite Hd, Hst.
      split; [done|]. by destruct (resultOf e) as [[]|].
    + destruct (Hunseen Hout) as (e' & -> & Hst & _ & Hd). cbn. by rewrite Hst, Hd.
  - intros Hk Hin. destruct (Hseen Hin) as [_ [[d|] Hd]]; [|destruct Hk; by apply Hnan].
    exists d. split; [done|]. by apply Hpos.
Qed.

(** X18. Whatever passes and resets have run, a slot that holds an event
    is under the event's own id, which is no name of [Object.prototype],
    and the event's tool name is the kind of its payload: a computer
    payload for [computer], a bash payload for [bash], and the raw
    arguments for [unknown].  A slot that holds no event (only a status,
    a duration and a result) is under a name of [Object.prototype] of
    which a result was seen. *)
Theorem tool_name_matches_payload (sc : Scanner) (k : string) (entry : Stored) :
  tracked ABORTED Date_now sc →
  byId (eventState sc) !! k = Some entry →
  match entry with
  | Registered e =>
      AgentEvents.id e = k ∧ (k ∉ prototypeMembers) ∧
      match AgentEvents.toolName e with
      | ToolComputer => ∃ p, payload e = PayloadComputer p
      | ToolBash => ∃ command, payload e = PayloadBash command
      | ToolUnknown => ∃ raw, payload e = PayloadUnknown raw
      end
  | Residue _ _ _ => k ∈ prototypeMembers ∧ k ∈ seenResults sc
  end.
Proof.
  intros ((_ & Hord & Hplain & Hres) & _ & _ & _ & _ & Hev)%tracked_coherent He.
  destruct (Hev k entry He) as (_ & _ & _ & _ & _ & Hshape).
  destruct entry as [e|st d r].
  - destruct Hshape as [Hid Hkind]. split; [done|].
    split; [apply Hplain, Hord; by exists e|].
    rewrite <- Hkind. destruct (payload e); by eexists.
  - split; [by eapply Hres|done].
Qed.

Lemma step_order_plain now s a k :
  consistent s → k ∉ prototypeMembers →
  (∃ e, a = RegisterCall e ∧ AgentEvents.id e = k) ∨
  (∃ st d r, a = RegisterResult k st d r) →
  order (eventReducer now s a) =
    if decide (k ∈ order s) then order s else order s ++ [k].
Proof.
  intros (_ & Hord & _ & Hres) Hk Ha.
  assert (match member (byId s) k with
          | Missing => k ∉ order s
          | Own _ => k ∈ order s
          | Inherited => False
          end) as Hcase.
  { destruct (member (byId s) k) as [[e|st d r]| |] eqn:E.
    - apply Shape.member_Own in E. apply Hord. by exists e.
    - apply Shape.member_Own in E. destruct Hk. by eapply Hres.
    - by apply Shape.member_Inherited in E as [_ ?].
    - apply Shape.member_Missing in E as [E _]. rewrite Hord, E. by intros [? [=]]. }
  destruct Ha as [(e & -> & <-)|(st & d & r & ->)]; cbn;
    destruct (member (byId s) _) as [[]| |]; try done;
    by rewrite ?decide_True, ?decide_False by done.
Qed.

Lemma step_order_inherited now s a k :
  k ∈ prototypeMembers →
  (∃ e, a = RegisterCall e ∧ AgentEvents.id e = k) ∨
  (∃ st d r, a = RegisterResult k st d r) →
  order (eventReducer now s a) = order s.
Proof.
  intros Hk Ha.
  assert (member (byId s) k ≠ Missing) as Hcase.
  { intros [_ ?]%Shape.member_Missing. done. }
  destruct Ha as [(e & -> & <-)|(st & d & r & ->)]; cbn;
    by destruct (member (byId s) _) as [[]| |].
Qed.

Lemma scanPart_order sc part :
  coherent sc →
  order (eventState (scanPart sc part)) =
    appendNew (order (eventState sc)) (option_list (partId part)).
Proof.
  intros Hsc. pose proof Hsc as (Hcons & _).
  destruct part as [|inv|]; cbn; try done.
  case_decide as Hid; [done|].
  assert (∀ now a,
    (∃ e, a = RegisterCall e ∧ AgentEvents.id e = toolCallId inv) ∨
    (∃ st d r, a = RegisterResult (toolCallId inv) st d r) →
    order (eventReducer now (eventState sc) a) =
      appendNew (order (eventState sc))
        (option_list (if decide (toolCallId inv ∈ prototypeMembers) then None
                      else Some (toolCallId inv)))) as Hstep.
  { intros now a Ha. case_decide as Hproto; cbn.
    - by eapply step_order_inherited.
    - by eapply step_order_plain. }
  assert (toolCallId inv ∈ seenCalls sc ∪ seenResults sc →
    order (eventState sc) =
      appendNew (order (eventState sc))
        (option_list (if decide (toolCallId inv ∈ prototypeMembers) then None
                      else Some (toolCallId inv)))) as Hknown.
  { intros Hseen. case_decide as Hproto; cbn; [done|].
    rewrite decide_True; [done|]. by apply coherent_order. }
  unfold scanResult, scanCall. destruct (Page.state inv).
  - destruct (decide (toolCallId inv ∈ seenCalls sc)) as [Hseen|Hseen];
      [apply Hknown; set_solver|].
    unfold dispatchEvent. cbn [eventState]. apply Hstep. left. by eexists.
  - destruct (decide (toolCallId inv ∈ seenResults sc)) as [Hseen|Hseen];
      [apply Hknown; set_solver|].
    destruct (member (callStart sc) (toolCallId inv));
      unfold dispatchEvent; cbn [eventState]; apply Hstep; right; by do 3 eexists.
Qed.

Lemma appendNew_app known ids more :
  appendNew known (ids ++ more) = appendNew (appendNew known ids) more.
Proof. apply foldl_app. Qed.

Lemma scanMessage_order sc m :
  coherent sc →
  coherent (scanMessage sc m) ∧
  order (eventState (scanMessage sc m)) =
    appendNew (order (eventState sc)) (omap partId (default [] (parts m))).
Proof.
  unfold Page.scanMessage. destruct (parts m) as [ps|]; [|done]. cbn.
  revert sc. induction ps as [|part ps IH]; intros sc Hsc; [done|]. cbn [foldl].
  destruct (IH (scanPart sc part)) as [Hc Ho]; [by apply coherent_scanPart|].
  split; [done|]. rewrite Ho, scanPart_order by done.
  cbn [omap list_omap]. by destruct (partId part).
Qed.

Lemma scan_order ms sc :
  coherent sc →
  order (eventState (scanMessages true ms sc)) =
    appendNew (order (eventState sc)) (invocationIds ms).
Proof.
  unfold Page.scanMessages, invocationIds.
  revert sc. induction ms as [|m ms IH]; intros sc Hsc; [done|]. cbn [foldl].
  destruct (scanMessage_order sc m Hsc) as [Hc Ho].
  rewrite (IH _ Hc), Ho. cbn. by rewrite appendNew_app.
Qed.

(** X24. After a pass, [order] is the [order] from before followed by the
    ids of the history's tool invocations that were not yet registered,
    each once, in the order of first appearance in the history, whether
    the first occurrence is a call or a result; empty ids are left out,
    and so are the ids that name a member of [Object.prototype], which
    never enter [order].  Right after a session reset, [order] is the
    first appearances alone. *)
Theorem order_is_first_seen (ms : list Message) (sc : Scanner) :
  tracked ABORTED Date_now sc →
  order (eventState (scanMessages true ms sc)) =
    appendNew (order (eventState sc)) (invocationIds ms) ∧
  order (eventState (scanMessages true ms (resetTracking Date_now true sc))) =
    appendNew [] (invocationIds ms).
Proof.
  intros Hsc. split.
  - by apply scan_order, tracked_coherent.
  - rewrite scan_order; [done|]. apply coherent_empty.
Qed.

Lemma scanCall_extends sc inv :
  extends (eventState sc) (eventState (scanCall Date_now sc inv)).
Proof.
  unfold scanCall. destruct (Page.state inv); [|apply ReducerLaws.extends_refl].
  case_decide; [apply ReducerLaws.extends_refl|]. by apply ReducerLaws.step_extends.
Qed.

Lemma scanResult_extends sc inv :
  extends (eventState sc) (eventState (scanResult ABORTED Date_now sc inv)).
Proof.
  unfold scanResult. destruct (Page.state inv); [apply ReducerLaws.extends_refl|].
  case_decide; [apply ReducerLaws.extends_refl|].
  destruct (member (callStart sc) (toolCallId inv)); by apply ReducerLaws.step_extends.
Qed.

Lemma scanPart_extends sc part :
  extends (eventState sc) (eventState (scanPart sc part)).
Proof.
  destruct part as [|inv|]; cbn; try apply ReducerLaws.extends_refl.
  case_decide; [apply ReducerLaws.extends_refl|].
  eapply ReducerLaws.extends_trans; [apply scanCall_extends|apply scanResult_extends].
Qed.

Lemma scanMessage_extends sc m :
  extends (eventState sc) (eventState (scanMessage sc m)).
Proof.
  unfold Page.scanMessage. destruct (parts m) as [ps|]; [|apply ReducerLaws.extends_refl].
  revert sc. induction ps as [|part ps IH]; intros sc; cbn;
    [apply ReducerLaws.extends_refl|].
  eapply ReducerLaws.extends_trans; [apply scanPart_extends|apply IH].
Qed.

(** X19. An ingestion pass never removes or reorders what is registered:
    the ids already in [order] stay in place, every slot of [byId] stays
    a slot, and every stored event keeps its id, tool name, timestamp and
    payload.  The payload of an id is the one of its first call
    occurrence; a later occurrence that reuses the id with other
    arguments changes nothing. *)
Theorem scan_keeps_registered (hasHydrated : bool) (ms : list Message) (sc : Scanner) :
  order (eventState sc) `prefix_of` order (eventState (scanMessages hasHydrated ms sc)) ∧
  (∀ k, is_Some (byId (eventState sc) !! k) →
        is_Some (byId (eventState (scanMessages hasHydrated ms sc)) !! k)) ∧
  ∀ k e, byId (eventState sc) !! k = Some (Registered e) →
    ∃ e', byId (eventState (scanMessages hasHydrated ms sc)) !! k = Some (Registered e') ∧
          AgentEvents.id e' = AgentEvents.id e ∧
          AgentEvents.toolName e' = AgentEvents.toolName e ∧
          timestamp e' = timestamp e ∧ payload e' = payload e.
Proof.
  change (extends (eventState sc) (eventState (scanMessages hasHydrated ms sc))).
  unfold Page.scanMessages. destruct hasHydrated; [|apply ReducerLaws.extends_refl].
  revert sc. induction ms as [|m ms IH]; intros sc; cbn;
    [apply ReducerLaws.extends_refl|].
  eapply ReducerLaws.extends_trans; [apply scanMessage_extends|apply IH].
Qed.

(** X20. A pass over an unchanged history changes nothing, not even the
    clock readings made; and after a pass over a history, a pass over
    that history followed by new messages acts as a pass over the new
    messages alone. *)
Theorem rescan_is_incremental (hasHydrated : bool) (ms more : list Message)
    (sc : Scanner) :
  let scanned := scanMessages hasHydrated ms sc in
  scanMessages hasHydrated ms scanned = scanned ∧
  scanMessages hasHydrated (ms ++ more) scanned = scanMessages hasHydrated more scanned.
Proof.
  cbv zeta. split; [apply Ingestion.rescan_unchanged|].
  unfold Page.scanMessages. destruct hasHydrated; [|done].
  rewrite foldl_app. f_equal.
  apply Ingestion.scan_settled_noop, Ingestion.scan_settles.
Qed.

Lemma stop_cases (ms prev : list Message) :
  match last ms with
  | None => stop ABORTED ms prev = Some prev
  | Some m =>
      match parts m with
      | None => stop ABORTED ms prev = None
      | Some ps =>
          match Page.role m, last ps with
          | RoleAssistant, Some (ToolInvocationPart inv) =>
              stop ABORTED ms prev
                = Some (removelast prev ++ [abortedLast ABORTED m ps inv])
          | _, _ => stop ABORTED ms prev = Some prev
          end
      end
  end.
Proof.
  unfold stop, abortedLast. destruct (last ms) as [m|]; [|done].
  destruct (parts m) as [ps|]; [|done].
  by destruct (Page.role m), (last ps) as [[]|].
Qed.

(** X21. [stop] fails exactly when the last message has no [parts]; on an
    empty history it leaves the messages as they are; and whenever it
    changes them, the last message is an assistant message whose last
    part is a tool invocation, the only part that is replaced. *)
Theorem stop_outcomes (ms prev : list Message) :
  (stop ABORTED ms prev = None ↔ ∃ m, last ms = Some m ∧ parts m = None) ∧
  (ms = [] → stop ABORTED ms prev = Some prev) ∧
  (∀ ms', stop ABORTED ms prev = Some ms' → ms' ≠ prev →
     ∃ m ps inv,
       last ms = Some m ∧ Page.role m = RoleAssistant ∧ parts m = Some ps ∧
       last ps = Some (ToolInvocationPart inv) ∧
       ms' = removelast prev ++ [abortedLast ABORTED m ps inv]).
Proof.
  pose proof (stop_cases ms prev) as Hcases.
  split; [|split].
  - destruct (last ms) as [m|]; [|rewrite Hcases; split; [done|by intros (? & [=] & _)]].
    destruct (parts m) as [ps|] eqn:Hps.
    + split; [|intros (m' & [= <-] & Hm'); congruence].
      destruct (Page.role m), (last ps) as [[]|]; by rewrite Hcases.
    + split; [by exists m|done].
  - by intros ->.
  - intros ms' Hstop Hne. destruct (last ms) as [m|] eqn:Hm; [|congruence].
    destruct (parts m) as [ps|] eqn:Hps; [|congruence].
    destruct (Page.role m) eqn:Hrole, (last ps) as [[|inv|]|] eqn:Hlast; try congruence.
    exists m, ps, inv. repeat split; try done.
    cbv beta iota in Hcases. congruence.
Qed.

(** X22. Stopping twice is stopping once: when [stop] succeeds on a
    history, a second [stop] on the result returns that result, and the
    number of messages is kept. *)
Theorem stop_twice (ms ms' : list Message) :
  stop ABORTED ms ms = Some ms' →
  stop ABORTED ms' ms' = Some ms' ∧ length ms' = length ms.
Proof.
  intros Hstop. pose proof (stop_cases ms ms) as Hcases.
  destruct (last ms) as [m|] eqn:Hm; [|by replace ms' with ms by congruence].
  destruct (parts m) as [ps|] eqn:Hps; [|congruence].
  assert (ms' = ms ∨ ∃ inv, Page.role m = RoleAssistant ∧
                            last ps = Some (ToolInvocationPart inv) ∧
                            ms' = removelast ms ++ [abortedLast ABORTED m ps inv])
    as [->|(inv & Hrole & Hlast & ->)].
  { destruct (Page.role m), (last ps) as [[|inv|]|]; try (left; congruence).
    right. exists inv. repeat split. congruence. }
  { done. }
  apply last_Some in Hm as [init ->]. apply last_Some in Hlast as [psinit ->].
  rewrite removelast_last. split; [|by rewrite !length_app].
  pose proof (stop_cases
    (init ++ [abortedLast ABORTED m (psinit ++ [ToolInvocationPart inv]) inv])
    (init ++ [abortedLast ABORTED m (psinit ++ [ToolInvocationPart inv]) inv])) as H2.
  rewrite last_snoc in H2. unfold abortedLast at 1 2 in H2. cbn [parts Page.role] in H2.
  rewrite removelast_last, last_snoc, Hrole in H2. rewrite H2.
  rewrite !removelast_last. unfold abortedLast. cbn. by rewrite !removelast_last.
Qed.

(** X23. When the last part of the last message, an assistant message, is
    a tool invocation whose result the scanner has already seen (or whose
    id is empty), [stop] still overwrites that part with the sentinel,
    but the next pass dispatches nothing: the store keeps the status and
    result it had, so the history and the store disagree from then on. *)
Theorem stop_after_result_keeps_store (ms : list Message) (sc0 : Scanner)
    (m : Message) (ps : list MessagePart) (inv : ToolInvocation) :
  let sc := scanMessages true ms sc0 in
  last ms = Some m → Page.role m = RoleAssistant → parts m = Some ps →
  last ps = Some (ToolInvocationPart inv) →
  toolCallId inv = "" ∨ toolCallId inv ∈ seenResults sc →
  let ms' := removelast ms ++ [abortedLast ABORTED m ps inv] in
  stop ABORTED ms ms = Some ms' ∧
  scanMessages true ms' sc = sc.
Proof.
  intros sc Hm Hrole Hps Hinv Hseen.
  assert (settled sc ms) as Hsettled by apply Ingestion.scan_settles.
  clearbody sc. cbv zeta.
  split; [by apply Ingestion.stop_last_invocation|].
  apply last_Some in Hm as [init ->]. apply last_Some in Hinv as [psinit ->].
  rewrite removelast_last. apply Ingestion.scan_settled_noop.
  unfold settled in *. apply Forall_app in Hsettled as [Hinit Hlast].
  rewrite Forall_singleton in Hlast. specialize (Hlast _ Hps).
  apply Forall_app in Hlast as [Hpsinit _].
  apply Forall_app. split; [done|]. rewrite Forall_singleton.
  unfold abortedLast. cbn [parts]. intros ps' [= <-].
  rewrite removelast_last. apply Forall_app. split; [done|].
  rewrite Forall_singleton. cbn. destruct Hseen; [by left|by right].
Qed.

End WithEnvironment.

End IngestionLaws.

(** ** The laws on sample runs *)

Module LawScenarios.

Import AgentEvents Page Spec Laws Samples SampleRuns.

Lemma answeredScanner_tracked : tracked "User aborted" sampleClock answeredScanner.
Proof. do 2 apply tracked_scan. apply tracked_initial. Qed.

Lemma answeredScanner_event :
  byId (eventState answeredScanner) !! "t1" = Some (Registered answeredEvent).
Proof. reflexivity. Qed.

Lemma inheritedIdScanner_tracked :
  tracked "User aborted" sampleClock inheritedIdScanner.
Proof. apply tracked_scan, tracked_initial. Qed.

(** A result under the id [toString]: the start time read back is the
    inherited member, the duration is [NaN], and the reducer, finding the
    inherited member too, stores a slot without an event and leaves
    [order] empty. *)
Example result_under_inherited_name :
  byId (eventState inheritedIdScanner) !! "toString" = Some inheritedIdSlot ∧
  order (eventState inheritedIdScanner) = [] ∧
  Views.events (eventState inheritedIdScanner) = [] ∧
  seenResults inheritedIdScanner = {["toString"]} ∧
  reads inheritedIdScanner = 1.
Proof. by repeat split. Qed.

Lemma store_holds_seen_ids_witness :
  NoDup (order (eventState answeredScanner)) ∧
  (∀ k, k ∈ order (eventState answeredScanner) ↔
        k ∈ seenCalls answeredScanner ∪ seenResults answeredScanner ∧
        k ∉ prototypeMembers) ∧
  (∀ k, is_Some (byId (eventState answeredScanner) !! k) ↔
        k ∈ seenResults answeredScanner ∨
        (k ∈ seenCalls answeredScanner ∧ k ∉ prototypeMembers)) ∧
  ("" ∉ order (eventState answeredScanner)) ∧
  (∀ k, is_Some (callStart answeredScanner !! k) ↔
        k ∈ seenCalls answeredScanner ∧ k ≠ "__proto__").
Proof.
  exact (IngestionLaws.store_holds_seen_ids "User aborted" sampleClock
           answeredScanner answeredScanner_tracked).
Defined.

Lemma status_follows_result_witness :
  status answeredEvent ≠ error ∧
  (status answeredEvent = running ↔ "t1" ∉ seenResults answeredScanner) ∧
  ("t1" ∈ seenResults answeredScanner →
   status answeredEvent = deriveStatusFromResult (AgentEvents.result answeredEvent)) ∧
  (status answeredEvent = aborted ↔
   ∃ t, AgentEvents.result answeredEvent = Some (ResultAborted t)).
Proof.
  exact (IngestionLaws.status_follows_result "User aborted" sampleClock
           answeredScanner "t1" (Registered answeredEvent)
           answeredScanner_tracked answeredScanner_event).
Defined.

Lemma duration_recorded_with_result_witness :
  ((durationMs answeredEvent = None ↔ status answeredEvent = running) ∧
   (∀ d, durationMs answeredEvent = Some (Int d) → (0 ≤ d)%Z) ∧
   (durationMs answeredEvent = Some NaN → "t1" ∈ prototypeMembers) ∧
   ("t1" ∉ prototypeMembers → "t1" ∈ seenResults answeredScanner →
    ∃ d, durationMs answeredEvent = Some (Int d) ∧ (0 ≤ d)%Z)) ∧
  (durationOf inheritedIdSlot = Some NaN → "toString" ∈ prototypeMembers).
Proof.
  split.
  - exact (IngestionLaws.duration_recorded_with_result "User aborted" sampleClock
             answeredScanner "t1" (Registered answeredEvent)
             answeredScanner_tracked answeredScanner_event).
  - exact (proj1 (proj2 (proj2
             (IngestionLaws.duration_recorded_with_result "User aborted" sampleClock
                inheritedIdScanner "toString" inheritedIdSlot
                inheritedIdScanner_tracked eq_refl)))).
Defined.

Lemma tool_name_matches_payload_witness :
  (AgentEvents.id answeredEvent = "t1" ∧ ("t1" ∉ prototypeMembers) ∧
   ∃ command, payload answeredEvent = PayloadBash command) ∧
  ("toString" ∈ prototypeMembers ∧ "toString" ∈ seenResults inheritedIdScanner).
Proof.
  split.
  - exact (IngestionLaws.tool_name_matches_payload "User aborted" sampleClock
             answeredScanner "t1" (Registered answeredEvent)
             answeredScanner_tracked answeredScanner_event).
  - exact (IngestionLaws.tool_name_matches_payload "User aborted" sampleClock
             inheritedIdScanner "toString" inheritedIdSlot
             inheritedIdScanner_tracked eq_refl).
Defined.

(** A call occurrence that reuses [t1] with another command is ignored. *)
Example reused_id_keeps_first_payload :
  let sc := scanMessages "User aborted" sampleClock true reusedIdHistory answeredScanner in
  order (eventState sc) = ["t1"; "t4"] ∧
  byId (eventState sc) !! "t1" = Some (Registered answeredEvent).
Proof. by split. Qed.

Lemma order_is_first_seen_witness :
  order (eventState
           (scanMessages "User aborted" sampleClock true reusedIdHistory answeredScanner))
    = appendNew (order (eventState answeredScanner)) (invocationIds reusedIdHistory) ∧
  order (eventState
           (scanMessages "User aborted" sampleClock true reusedIdHistory
              (resetTracking sampleClock true answeredScanner)))
    = appendNew [] (invocationIds reusedIdHistory).
Proof.
  exact (IngestionLaws.order_is_first_seen "User aborted" sampleClock
           reusedIdHistory answeredScanner answeredScanner_tracked).
Defined.

(** The ids of a history are appended in order of first appearance; an id
    that names a member of [Object.prototype] is not among them. *)
Example appendNew_sample :
  invocationIds (singleCallAnswered ++ reusedIdHistory) = ["t1"; "t1"; "t4"] ∧
  invocationIds (inheritedIdHistory ++ reusedIdHistory) = ["t1"; "t4"] ∧
  appendNew ["t1"] (invocationIds reusedIdHistory) = ["t1"; "t4"] ∧
  appendNew [] ["t2"; "t1"; "t2"; "t3"; "t1"] = ["t2"; "t1"; "t3"].
Proof. by repeat split. Qed.

Lemma stop_twice_witness :
  stop "User aborted" (parallelCallStopped "User aborted")
                      (parallelCallStopped "User aborted")
    = Some (parallelCallStopped "User aborted") ∧
  length (parallelCallStopped "User aborted") = length parallelCallHistory.
Proof.
  exact (IngestionLaws.stop_twice "User aborted" parallelCallHistory
           (parallelCallStopped "User aborted") eq_refl).
Defined.

Lemma stop_after_result_keeps_store_witness :
  stop "User aborted" singleCallAnswered singleCallAnswered = Some answeredThenStopped ∧
  scanMessages "User aborted" sampleClock true answeredThenStopped answeredScanner
    = answeredScanner.
Proof.
  apply (IngestionLaws.stop_after_result_keeps_store "User aborted" sampleClock
           singleCallAnswered
           (scanMessages "User aborted" sampleClock true singleCallHistory initialScanner)
           (assistantMessage answeredParts) answeredParts answeredInvocation).
  - reflexivity.
  - reflexivity.
  - reflexivity.
  - reflexivity.
  - right. vm_compute. reflexivity.
Defined.

End LawScenarios.

